(** * On-demand ordering initialisation and YAC vote transport of irohad

    A shallow embedding of
    - [OnDemandOrderingInit::createConnectionManager] and
      [OnDemandOrderingInit::createGate] (main/impl/on_demand_ordering_init.cpp),
    - [NetworkImpl] (consensus/yac/transport/impl/network_impl.{hpp,cpp}),
    - [createInsecureClient] (network/impl/channel_factory.hpp),
    together with the helpers they call.

    Unsigned machine integers are integers of [Z] with the wrap-around
    written out; [std::vector] is [list]; [std::unordered_set] is [gset];
    undefined behaviour of the C++ code (a modulo by zero, an index past the
    end of a vector) is an explicit fault value. *)

From Stdlib Require Import ZArith NArith Lia Sorted DecimalString DecimalN.
From stdpp Require Import base option list gmap strings.

#[local] Open Scope Z_scope.

(** ** Part I: the model *)

(** *** consensus/round.hpp (data model) *)

Module consensus.

(** Arithmetic of [uint64_t] and of [uint32_t]. *)
Definition u64 (z : Z) : Z := z mod 2 ^ 64.
Definition u32 (z : Z) : Z := z mod 2 ^ 32.

(** Modelled from the spec: round.hpp is not among the sources; "Round: a
    pair (block_round: u64, reject_round: u32)", ordered lexicographically. *)
Record Round := mkRound { block_round : Z; reject_round : Z }.

(** The values a [Round] object can hold. *)
Definition wf_round (r : Round) : Prop :=
  0 <= block_round r < 2 ^ 64 /\ 0 <= reject_round r < 2 ^ 32.

(** Lexicographic order on (block_round, reject_round). *)
Definition round_ltb (a b : Round) : bool :=
  (block_round a <? block_round b)
  || ((block_round a =? block_round b) && (reject_round a <? reject_round b)).

Definition round_lt (a b : Round) : Prop :=
  block_round a < block_round b
  \/ (block_round a = block_round b /\ reject_round a < reject_round b).

Definition round_le (a b : Round) : Prop := a = b \/ round_lt a b.

Definition round_eqb (a b : Round) : bool :=
  (block_round a =? block_round b) && (reject_round a =? reject_round b).

End consensus.
Export consensus.

(** *** ordering/impl/on_demand_common.hpp *)

Module ordering.

(** Modelled from the spec: on_demand_common.cpp is not among the sources;
    [next_commit_round(r) = (r.block_round + 1, 0)], the addition being the
    one of [uint64_t]. *)
Definition nextCommitRound (round : Round) : Round :=
  mkRound (u64 (block_round round + 1)) 0.

(** Modelled from the spec: on_demand_common.cpp is not among the sources;
    [next_reject_round(r) = (r.block_round, r.reject_round + 1)], the
    addition being the one of [uint32_t]. *)
Definition nextRejectRound (round : Round) : Round :=
  mkRound (block_round round) (u32 (reject_round round + 1)).

(** Modelled from the spec: on_demand_common.cpp is not among the sources;
    section 4.1, [current_reject_consumer(reject_round) = reject_round + 1],
    the sum as the specification writes it. (The rounds table in the comment
    of [map_peers] draws the target of [kRejectRejectConsumer] at round 0,2
    for the current round 0,0; the body of the helper cannot be read in the
    sources.) *)
Definition currentRejectRoundConsumer (round : Z) : Z := round + 1.

(** Modelled from the spec: [NEXT_COMMIT_CONSUMER = 0]. *)
Definition kNextCommitRoundConsumer : Z := 0.

(** Modelled from the spec: [NEXT_REJECT_CONSUMER = 1]. *)
Definition kNextRejectRoundConsumer : Z := 1.

End ordering.
Export ordering.

(** *** synchronizer/synchronizer_common.hpp (data model) *)

(** Modelled from the spec: the headers of the data model are not among the
    sources; section 3: a block hash is an opaque byte string, a peer has an
    address, a public key and an optional TLS certificate, a ledger state
    holds the ordered list [ledger_peers], and a synchronization event
    carries the round, the outcome and the ledger state. *)
Definition Hash := string.

Record Peer := mkPeer {
  address : string;
  pubkey : string;
  tls_certificate : option string
}.

Record LedgerState := mkLedgerState { ledger_peers : list Peer }.

Inductive SynchronizationOutcomeType := kCommit | kReject | kNothing.

Record SynchronizationEvent := mkSynchronizationEvent {
  round : Round;
  sync_outcome : SynchronizationOutcomeType;
  ledger_state : LedgerState
}.

(** *** common/permutation_generator.hpp *)

(** The random engine behind [makeSeededPrng]: a collaborator of this code.
    [makeSeededPrng] seeds an engine with the bytes of a hash; [prng_draw]
    is one call of the engine, returning the draw and the advanced engine. *)
Class RandomEngineOps := {
  RandomEngine : Type;
  makeSeededPrng : Hash -> RandomEngine;
  prng_draw : RandomEngine -> nat * RandomEngine
}.

(** [std::swap(p[i], p[j])]; the generator only calls it in range. *)
Definition swap (p : list nat) (i j : nat) : list nat :=
  match p !! i, p !! j with
  | Some x, Some y => <[j := x]> (<[i := y]> p)
  | _, _ => p
  end.

Section PermutationGenerator.
Context `{RandomEngineOps}.

(** Modelled from the spec: permutation_generator.cpp is not among the
    sources; "seeds a PRNG with the hash bytes and produces a Fisher-Yates
    shuffle of [0, n)". Position [i] is exchanged with a drawn position of
    [0..i], for [i] from [n - 1] down to [1]. *)
Fixpoint shuffle (i : nat) (prng : RandomEngine) (p : list nat) : list nat :=
  match i with
  | O => p
  | S i' =>
      let '(x, prng') := prng_draw prng in
      shuffle i' prng' (swap p i (x mod S i)%nat)
  end.

Definition generatePermutation (prng : RandomEngine) (size : nat) : list nat :=
  shuffle (size - 1)%nat prng (seq 0%nat size).

End PermutationGenerator.

(** *** OnDemandOrderingInit::createConnectionManager: [map_peers] *)

(** What C++ leaves undefined. *)
Inductive Fault := ModuloByZero | IndexOutOfRange.

Inductive outcome (A : Type) :=
  | Returns (a : A)
  | Undefined (f : Fault).
Arguments Returns {A} a.
Arguments Undefined {A} f.

#[global] Instance outcome_ret : MRet outcome := fun A a => Returns a.
#[global] Instance outcome_bind : MBind outcome := fun A B k m =>
  match m with
  | Returns a => k a
  | Undefined f => Undefined f
  end.

(** indexes to permutations for corresponding rounds *)
Inductive RoundType := kCurrentRound | kNextRound | kRoundAfterNext.

Definition get_hash (round : RoundType) (hashes : Hash * Hash * Hash) : Hash :=
  match round, hashes with
  | kCurrentRound, (h0, _, _) => h0
  | kNextRound, (_, h1, _) => h1
  | kRoundAfterNext, (_, _, h2) => h2
  end.

Module OnDemandConnectionManager.
(** [CurrentPeers::peers], an array indexed by the role. *)
Record CurrentPeers := mkCurrentPeers {
  kRejectRejectConsumer : Peer;
  kRejectCommitConsumer : Peer;
  kCommitRejectConsumer : Peer;
  kCommitCommitConsumer : Peer;
  kIssuer : Peer
}.
End OnDemandConnectionManager.
Export OnDemandConnectionManager.

(** [current_peers[permutation[reject_round % permutation.size()]]]:
    [operator[]] does not check its index and [%] does not check its
    divisor. *)
Definition getOsPeer (current_peers : list Peer)
    (permutations : RoundType -> list nat)
    (block_round_advance : RoundType) (reject_round : Z) : outcome Peer :=
  let permutation := permutations block_round_advance in
  let size := Z.of_nat (length permutation) in
  if size =? 0 then Undefined ModuloByZero
  else
    match permutation !! Z.to_nat (reject_round mod size) with
    | None => Undefined IndexOutOfRange
    | Some i =>
        match current_peers !! i with
        | None => Undefined IndexOutOfRange
        | Some peer => Returns peer
        end
    end.

Section MapPeers.
Context `{RandomEngineOps}.

Definition map_peers
    (latest_data : SynchronizationEvent * (Hash * Hash * Hash))
  : outcome CurrentPeers :=
  let latest_commit := latest_data.1 in
  let current_hashes := latest_data.2 in
  let current_round := round latest_commit in
  let current_peers := ledger_peers (ledger_state latest_commit) in
  let generate_permutation (round : RoundType) :=
    generatePermutation (makeSeededPrng (get_hash round current_hashes))
                        (length current_peers) in
  let permutations := generate_permutation in
  let current_round :=
    match sync_outcome latest_commit with
    | kCommit => nextCommitRound current_round
    | kReject | kNothing => nextRejectRound current_round
    end in
  let getOsPeer := getOsPeer current_peers permutations in
  rr ← getOsPeer kCurrentRound
         (currentRejectRoundConsumer (reject_round current_round));
  rc ← getOsPeer kNextRound kNextCommitRoundConsumer;
  cr ← getOsPeer kNextRound kNextRejectRoundConsumer;
  cc ← getOsPeer kRoundAfterNext kNextCommitRoundConsumer;
  issuer ← getOsPeer kCurrentRound (reject_round current_round);
  mret (mkCurrentPeers rr rc cr cc issuer).

End MapPeers.

(** A counter as random engine, for evaluating the model: seeded with the
    length of the hash, it draws its state and steps by one. *)
Definition counter_engine : RandomEngineOps :=
  {| RandomEngine := nat;
     makeSeededPrng := fun h => String.length h;
     prng_draw := fun s => (s, S s) |}.

(** [ledger_peers[P[k mod N]]], as the specification writes the role
    bindings, [N] the number of ledger peers. *)
Definition peer_at (peers : list Peer) (P : list nat) (k : Z) : option Peer :=
  i ← P !! Z.to_nat (k mod Z.of_nat (length peers)); peers !! i.

(** The round the connection manager binds peers for. *)
Definition bound_round (event : SynchronizationEvent) : Round :=
  match sync_outcome event with
  | kCommit => nextCommitRound (round event)
  | kReject | kNothing => nextRejectRound (round event)
  end.

(** *** interfaces/iroha_internal/block.hpp (data model) *)

(** The accessors the code calls: [tx.hash()], [block->height()],
    [block->hash()], [block->transactions()] and
    [block->rejected_transactions_hashes()]. *)
Record Transaction := mkTransaction { tx_hash : Hash }.

Record Block := mkBlock {
  height : Z;
  block_hash : Hash;
  transactions : list Transaction;
  rejected_transactions_hashes : list Hash
}.

(** *** The rxcpp operators of createConnectionManager

    The node's two subjects are fed one notification at a time. An
    observable is described by the items it has delivered to a subscriber,
    oldest first, after a history of notifications (all subscriptions are
    made at construction, before the first notification). *)

Inductive Notification :=
  | OnCommit (block : Block)
  | OnSync (event : SynchronizationEvent).

Definition observable (A : Type) : Type := list Notification -> list A.

Definition commit_notifier : observable Block :=
  omap (fun n => match n with OnCommit b => Some b | OnSync _ => None end).

Definition sync_event_notifier : observable SynchronizationEvent :=
  omap (fun n => match n with OnSync e => Some e | OnCommit _ => None end).

Definition rx_map {A B} (f : A -> B) (o : observable A) : observable B :=
  fun h => f <$> o h.

(** [o.start_with(x, y)]: the given items on subscription, then [o]. *)
Definition rx_start_with {A} (o : observable A) (first : list A)
  : observable A :=
  fun h => first ++ o h.

Definition rx_skip {A} (n : nat) (o : observable A) : observable A :=
  fun h => drop n (o h).

(** [zip]: the k-th tuple is delivered once every source has delivered its
    k-th item. *)
Definition rx_zip {A B C} (o1 : observable A) (o2 : observable B)
    (o3 : observable C) : observable (A * B * C) :=
  fun h => zip_with (fun a bc => (a, bc.1, bc.2)) (o1 h) (zip (o2 h) (o3 h)).

Definition pair_with_latest {A B} (latest : option B) (items : list A)
  : list (A * B) :=
  match latest with
  | Some b => (fun a => (a, b)) <$> items
  | None => []
  end.

(** [src.with_latest_from(other)]: every new item of [src] is paired with
    the last item [other] has delivered so far; it is dropped while [other]
    has delivered nothing. *)
Fixpoint with_latest_from_go {A B} (src : observable A) (other : observable B)
    (seen rest : list Notification) : list (A * B) :=
  match rest with
  | [] => []
  | n :: rest' =>
      let seen' := seen ++ [n] in
      pair_with_latest (last (other seen'))
                       (drop (length (src seen)) (src seen'))
      ++ with_latest_from_go src other seen' rest'
  end.

Definition rx_with_latest_from {A B} (src : observable A)
    (other : observable B) : observable (A * B) :=
  fun h => pair_with_latest (last (other [])) (src [])
           ++ with_latest_from_go src other [] h.

(** *** OnDemandOrderingInit::createConnectionManager: the dataflow *)

Module OnDemandOrderingInit.
Section createConnectionManager.
Context `{RandomEngineOps}.
(** [initial_hashes.at(kBeforePreviousTop)], [initial_hashes.at(kPreviousTop)] *)
Variables (before_previous_top previous_top : Hash).

Definition blocks : observable Block := commit_notifier.

Definition block_hashes : observable Hash := rx_map block_hash blocks.

Definition all_hashes : observable Hash :=
  rx_start_with block_hashes [before_previous_top; previous_top].

Definition hashes_without_first : observable Hash := rx_skip 1 all_hashes.

Definition hashes_without_first_two : observable Hash := rx_skip 2 all_hashes.

Definition latest_hashes : observable (Hash * Hash * Hash) :=
  rx_zip all_hashes hashes_without_first hashes_without_first_two.

Definition sync_events : observable SynchronizationEvent := sync_event_notifier.

Definition sync_events_with_hashes
  : observable (SynchronizationEvent * (Hash * Hash * Hash)) :=
  rx_with_latest_from sync_events latest_hashes.

Definition peers : observable (outcome CurrentPeers) :=
  rx_map map_peers sync_events_with_hashes.

End createConnectionManager.

(** [std::vector::at] throws on a list of fewer than two initial hashes. *)
Definition createConnectionManager `{RandomEngineOps}
    (initial_hashes : list Hash) : option (observable (outcome CurrentPeers)) :=
  a ← initial_hashes !! 0%nat;
  b ← initial_hashes !! 1%nat;
  Some (peers a b).

End OnDemandOrderingInit.
Export OnDemandOrderingInit.

(** The specification's reading of the dataflow: the stream
    [initial_hashes[0], initial_hashes[1], hash(block 1), hash(block 2), ...]
    as of a history, and its three most recent elements in commit order. *)
Definition spec_hash_stream (i0 i1 : Hash) (h : list Notification) : list Hash :=
  i0 :: i1 :: omap (fun n => match n with
                             | OnCommit b => Some (block_hash b)
                             | OnSync _ => None
                             end) h.

Definition three_most_recent (s : list Hash) : option (Hash * Hash * Hash) :=
  match reverse s with
  | c :: b :: a :: _ => Some (a, b, c)
  | _ => None
  end.

Fixpoint spec_pairing_go (i0 i1 : Hash) (seen rest : list Notification)
  : list (SynchronizationEvent * (Hash * Hash * Hash)) :=
  match rest with
  | [] => []
  | OnCommit b :: rest' => spec_pairing_go i0 i1 (seen ++ [OnCommit b]) rest'
  | OnSync e :: rest' =>
      match three_most_recent (spec_hash_stream i0 i1 seen) with
      | Some t => [(e, t)]
      | None => []
      end ++ spec_pairing_go i0 i1 (seen ++ [OnSync e]) rest'
  end.

(** The sliding windows [zip] builds from a stream and its two shifts. *)
Definition windows (s : list Hash) : list (Hash * Hash * Hash) :=
  zip_with (fun a bc => (a, bc.1, bc.2)) s (zip (drop 1 s) (drop 2 s)).

(** Every sync event with the latest triple as of its arrival, none while
    the stream has fewer than three elements. *)
Definition spec_pairing (i0 i1 : Hash) (h : list Notification)
  : list (SynchronizationEvent * (Hash * Hash * Hash)) :=
  spec_pairing_go i0 i1 [] h.

(** *** OnDemandOrderingInit::createGate *)

Module OnDemandOrderingGate.
(** [RoundSwitch{current_round, event.ledger_state}] *)
Record RoundSwitch := mkRoundSwitch {
  next_round : Round;
  rs_ledger_state : LedgerState
}.
End OnDemandOrderingGate.
Export OnDemandOrderingGate.

(** The function mapped over [sync_event_notifier.get_observable()]. *)
Definition round_switch_of (event : SynchronizationEvent) : RoundSwitch :=
  let current_round :=
    match sync_outcome event with
    | kCommit => nextCommitRound (round event)
    | kReject => nextRejectRound (round event)
    | kNothing => nextRejectRound (round event)
    end in
  mkRoundSwitch current_round (ledger_state event).

(** The round switches handed to the gate. *)
Definition gate_round_switch_events : observable RoundSwitch :=
  rx_map round_switch_of sync_event_notifier.

(** The round switches the gate receives for a local trace of
    synchronization events. *)
Definition gate_round_switches (trace : list SynchronizationEvent)
  : list RoundSwitch :=
  gate_round_switch_events (OnSync <$> trace).

(** The counter the event's outcome advances does not overflow: the block
    round on a commit, the reject round on a reject or on nothing. *)
Definition no_overflow (e : SynchronizationEvent) : Prop :=
  match sync_outcome e with
  | kCommit => block_round (round e) + 1 < 2 ^ 64
  | kReject | kNothing => reject_round (round e) + 1 < 2 ^ 32
  end.

(** The synchronizer reports every event on a round that is not below the
    round the gate switched to on the previous event. *)
Definition follows_switch (e1 e2 : SynchronizationEvent) : Prop :=
  round_le (next_round (round_switch_of e1)) (round e2).

(** The function mapped over [commit_notifier.get_observable()]: committed
    and rejected transaction hashes of a committed block. *)
Definition committed_hashes (block : Block) : gset Hash :=
  let hashes : gset Hash := ∅ in
  let hashes :=
    foldl (fun hashes tx => hashes ∪ {[ tx_hash tx ]}) hashes
          (transactions block) in
  foldl (fun hashes hash => hashes ∪ {[ hash ]}) hashes
        (rejected_transactions_hashes block).

(** The eviction sets handed to the gate. *)
Definition gate_eviction_sets : observable (gset Hash) :=
  rx_map committed_hashes commit_notifier.

(** Modelled from the spec: the ordering gate and its cache are not among
    the sources; "ordering gate cache: in-memory set of pending transaction
    hashes awaiting inclusion; evicted when a block commits": the gate
    removes the eviction set it receives from the cache. *)
Definition cache_remove (cache hashes : gset Hash) : gset Hash :=
  cache ∖ hashes.

Definition gate_on_commit (cache : gset Hash) (block : Block) : gset Hash :=
  cache_remove cache (committed_hashes block).

(** *** consensus/yac/transport/impl/network_impl.{hpp,cpp} *)

Module yac.

(** Modelled from the spec: vote_message.hpp is not among the sources;
    "VoteMessage: { hash: ProposalHash, signature: Signature, round: Round }". *)
Record VoteMessage := mkVoteMessage {
  vote_hash : string;
  vote_signature : string;
  vote_round : Round
}.

(** Modelled from the spec: yac_common.cpp is not among the sources; "all
    votes share the same (block_round, reject_round) key", the key of the
    first vote; an empty list has no key (the rpc asks for non-empty lists
    only). *)
Definition sameKeys (votes : list VoteMessage) : bool :=
  match votes with
  | [] => false
  | first :: _ =>
      forallb (fun current => round_eqb (vote_round first) (vote_round current))
              votes
  end.

(** The collaborators of the transport: the protobuf converters
    ([PbConverters::serializeVote], [PbConverters::deserializeVote], which
    yields nothing for a vote it cannot read), the client factory
    ([createClient], a client or an error text) and the notification
    handlers ([YacNetworkNotifications]). *)
Class Collaborators := {
  PbVote : Type;
  serializeVote : VoteMessage -> PbVote;
  deserializeVote : PbVote -> option VoteMessage;
  Client : Type;
  createClient : Peer -> Client + string;
  Handler : Type
}.

Inductive Status := OK | CANCELLED.

Inductive LogLevel := lvl_info | lvl_warn | lvl_error.

Section NetworkImpl.
Context `{Collaborators}.

(** What a call does to the outside: it logs, builds an outbound [State]
    request, asks the client factory for a client, posts the asynchronous
    [AsyncSendState], or calls [onState] of the handler. The call posted to
    [async_call_] logs at info and then sends. *)
Inductive Action :=
  | Log (level : LogLevel)
  | BuildRequest (request : list PbVote)
  | CreateClient (to : Peer)
  | AsyncSendState (client : Client) (request : list PbVote)
  | OnState (handler : Handler) (state : list VoteMessage).

(** [handler_] is what [handler_.lock()] yields: nothing before the first
    [subscribe] and after the handler object is gone. *)
Record NetworkImpl := mkNetworkImpl {
  handler_ : option Handler;
  stop_requested_ : bool
}.

(** The state after construction: [stop_requested_{false}]. *)
Definition new_network : NetworkImpl := mkNetworkImpl None false.

Definition subscribe (self : NetworkImpl) (handler : Handler) : NetworkImpl :=
  mkNetworkImpl (Some handler) (stop_requested_ self).

Definition stop (self : NetworkImpl) : NetworkImpl :=
  mkNetworkImpl (handler_ self) true.

Definition sendState (self : NetworkImpl) (to : Peer)
    (state : list VoteMessage) : list Action :=
  if stop_requested_ self then [Log lvl_warn]
  else
    let request := serializeVote <$> state in
    BuildRequest request :: CreateClient to ::
    match createClient to with
    | inl client => [Log lvl_info; AsyncSendState client request]
    | inr error => [Log lvl_error]
    end.

(** The rpc; "naming is confusing, because this is rpc call that perform on
    another machine": it receives votes. *)
Definition SendState (self : NetworkImpl) (request : list PbVote)
  : Status * list Action :=
  let state := omap deserializeVote request in
  match state with
  | [] => (CANCELLED, [Log lvl_info])
  | _ :: _ =>
      if negb (sameKeys state) then (CANCELLED, [Log lvl_info])
      else
        (OK, Log lvl_info ::
             match handler_ self with
             | Some notifications => [OnState notifications state]
             | None => [Log lvl_error]
             end)
  end.

(** The calls a transport object sees during its life. *)
Inductive Call :=
  | call_subscribe (handler : Handler)
  | call_stop
  | call_sendState (to : Peer) (state : list VoteMessage)
  | rpc_SendState (request : list PbVote)
  | handler_released.

Definition step (self : NetworkImpl) (c : Call) : NetworkImpl * list Action :=
  match c with
  | call_subscribe handler => (subscribe self handler, [])
  | call_stop => (stop self, [])
  | call_sendState to state => (self, sendState self to state)
  | rpc_SendState request => (self, (SendState self request).2)
  | handler_released => (mkNetworkImpl None (stop_requested_ self), [])
  end.

Fixpoint run (self : NetworkImpl) (calls : list Call)
  : NetworkImpl * list Action :=
  match calls with
  | [] => (self, [])
  | c :: calls' =>
      let '(self', acts) := step self c in
      let '(self'', acts') := run self' calls' in
      (self'', acts ++ acts')
  end.

(** The actions that send something out. *)
Definition outbound (a : Action) : bool :=
  match a with
  | BuildRequest _ | CreateClient _ | AsyncSendState _ _ => true
  | Log _ | OnState _ _ => false
  end.

Definition is_onState (a : Action) : bool :=
  match a with
  | OnState _ _ => true
  | _ => false
  end.

End NetworkImpl.

(** Collaborators for evaluating the model: a wire vote is a vote or
    unreadable, every peer gets itself as client, handlers are numbered. *)
Definition plain_collaborators : Collaborators :=
  {| PbVote := option VoteMessage;
     serializeVote := Some;
     deserializeVote := fun pb => pb;
     Client := Peer;
     createClient := inl;
     Handler := nat |}.

End yac.
Export yac.

(** *** Observations on results and traces *)

(** The value a call returned, if it returned. *)
Definition returned {A} (o : outcome A) : option A :=
  match o with
  | Returns a => Some a
  | Undefined _ => None
  end.

(** The consumers of the rounds that follow a commit or a reject of the
    current round. *)
Definition next_round_consumers (cp : CurrentPeers) : Peer * Peer * Peer :=
  (kRejectCommitConsumer cp, kCommitRejectConsumer cp,
   kCommitCommitConsumer cp).

Section TransportObservers.
Context `{Collaborators}.

Definition is_createClient (a : Action) : bool :=
  match a with
  | CreateClient _ => true
  | _ => false
  end.

Definition is_stop (c : Call) : bool :=
  match c with
  | call_stop => true
  | _ => false
  end.

Definition is_sendState (c : Call) : bool :=
  match c with
  | call_sendState _ _ => true
  | _ => false
  end.

(** What the handlers were given, in order. *)
Definition handed_over (acts : list Action) : list Action :=
  List.filter is_onState acts.

End TransportObservers.

(** *** network/impl/channel_factory.hpp *)

Module network.

(** [std::to_string(size_t)]: the decimal digits, no leading zero. *)
Definition to_string (port : N) : string :=
  NilEmpty.string_of_uint (N.to_uint port).

(** [ip + ":" + std::to_string(port)] *)
Definition client_address (ip : string) (port : N) : string :=
  String.append ip (String.append ":" (to_string port)).

Section createInsecureClient.
Context {GrpcChannelParams Stub : Type}.
(** The overload that takes the address, [Service::NewStub] of the insecure
    channel to it. *)
Variable createInsecureClient_address : string -> GrpcChannelParams -> Stub.

Definition createInsecureClient (ip : string) (port : N)
    (params : GrpcChannelParams) : Stub :=
  createInsecureClient_address (client_address ip port) params.

End createInsecureClient.

(** An address part without a colon (character 58), as an IPv4 address or
    a host name. *)
Fixpoint no_colon (s : string) : bool :=
  match s with
  | EmptyString => true
  | String c s' => negb (Ascii.eqb c (Ascii.ascii_of_nat 58)) && no_colon s'
  end.

End network.
Export network.

(** ** Part II: properties *)

(** *** Round algebra *)

Section RoundAlgebra.

Lemma u64_range z : 0 <= u64 z < 2 ^ 64.
Proof. unfold u64. apply Z.mod_pos_bound. lia. Qed.

Lemma u32_range z : 0 <= u32 z < 2 ^ 32.
Proof. unfold u32. apply Z.mod_pos_bound. lia. Qed.

Lemma u64_small z : 0 <= z < 2 ^ 64 -> u64 z = z.
Proof. intros. unfold u64. apply Z.mod_small. lia. Qed.

Lemma u32_small z : 0 <= z < 2 ^ 32 -> u32 z = z.
Proof. intros. unfold u32. apply Z.mod_small. lia. Qed.

Lemma u32_succ_inj a b :
  0 <= a < 2 ^ 32 -> 0 <= b < 2 ^ 32 -> u32 (a + 1) = u32 (b + 1) -> a = b.
Proof.
  unfold u32. intros Ha Hb H.
  destruct (Z.eq_dec a (2 ^ 32 - 1)) as [->|Hna];
    destruct (Z.eq_dec b (2 ^ 32 - 1)) as [->|Hnb]; try reflexivity.
  - rewrite (Z.mod_small (b + 1)) in H by lia.
    replace (2 ^ 32 - 1 + 1) with (1 * 2 ^ 32) in H by lia.
    rewrite Z.mod_mul in H by lia. lia.
  - rewrite (Z.mod_small (a + 1)) in H by lia.
    replace (2 ^ 32 - 1 + 1) with (1 * 2 ^ 32) in H by lia.
    rewrite Z.mod_mul in H by lia. lia.
  - rewrite !Z.mod_small in H by lia. lia.
Qed.

Lemma u64_succ_neq b : u64 (b + 1) <> b.
Proof.
  intros H. pose proof (u64_range (b + 1)) as Hr. rewrite H in Hr.
  unfold u64 in H.
  destruct (Z.eq_dec b (2 ^ 64 - 1)) as [->|Hnb].
  - replace (2 ^ 64 - 1 + 1) with (1 * 2 ^ 64) in H by lia.
    rewrite Z.mod_mul in H by lia. lia.
  - rewrite Z.mod_small in H by lia. lia.
Qed.

Lemma round_ltb_lt a b : round_ltb a b = true <-> round_lt a b.
Proof.
  unfold round_ltb, round_lt.
  rewrite orb_true_iff, andb_true_iff, Z.ltb_lt, Z.eqb_eq, Z.ltb_lt. tauto.
Qed.

Lemma round_lt_irrefl a : ~ round_lt a a.
Proof. unfold round_lt. lia. Qed.

Lemma round_lt_trans a b c : round_lt a b -> round_lt b c -> round_lt a c.
Proof. unfold round_lt. lia. Qed.

Lemma round_le_lt_trans a b c : round_le a b -> round_lt b c -> round_lt a c.
Proof. intros [->|H] ?; eauto using round_lt_trans. Qed.

(** C8, the claim as stated fails: [nextCommitRound] forgets the reject
    round, so two different rounds of one block round have the same image. *)
Lemma nextCommitRound_not_injective :
  nextCommitRound (mkRound 5 0) = nextCommitRound (mkRound 5 1)
  /\ mkRound 5 0 <> mkRound 5 1.
Proof. split; [reflexivity | discriminate]. Qed.

(** C8 (amended): for all rounds [r1], [r2] a [Round] object can hold,
    [nextCommitRound (b, r) = (b + 1, 0)] and
    [nextRejectRound (b, r) = (b, r + 1)] (additions of [uint64_t] and
    [uint32_t]); [nextRejectRound] is injective; [nextCommitRound] identifies
    exactly the rounds with the same block round; and the two functions agree
    on no round. *)
Theorem round_algebra (r1 r2 : Round) :
  wf_round r1 -> wf_round r2 ->
  nextCommitRound r1 = mkRound (u64 (block_round r1 + 1)) 0
  /\ nextRejectRound r1 = mkRound (block_round r1) (u32 (reject_round r1 + 1))
  /\ (nextRejectRound r1 = nextRejectRound r2 -> r1 = r2)
  /\ (nextCommitRound r1 = nextCommitRound r2 <-> block_round r1 = block_round r2)
  /\ nextCommitRound r1 <> nextRejectRound r1.
Proof.
  destruct r1 as [b1 q1], r2 as [b2 q2]. unfold wf_round; cbn.
  intros [Hb1 Hq1] [Hb2 Hq2]. repeat split.
  - unfold nextRejectRound; cbn. intros [= -> Hq].
    f_equal. now apply u32_succ_inj.
  - unfold nextCommitRound; cbn. intros [= H].
    rewrite <- (u64_small b1), <- (u64_small b2) by lia.
    unfold u64 in *.
    replace b1 with (b1 + 1 - 1) at 1 by lia.
    replace b2 with (b2 + 1 - 1) at 1 by lia.
    rewrite (Zminus_mod (b1 + 1)), (Zminus_mod (b2 + 1)), H. reflexivity.
  - intros ->. reflexivity.
  - unfold nextCommitRound, nextRejectRound; cbn. intros [= H _].
    now apply u64_succ_neq in H.
Qed.

(** The round algebra at the last reject round of block round 7. *)
Lemma round_algebra_witness :
  wf_round (mkRound 7 4294967295) /\ wf_round (mkRound 7 3)
  /\ (nextCommitRound (mkRound 7 4294967295) = mkRound 8 0
      /\ nextRejectRound (mkRound 7 4294967295) = mkRound 7 0
      /\ (nextRejectRound (mkRound 7 4294967295) = nextRejectRound (mkRound 7 3)
          -> mkRound 7 4294967295 = mkRound 7 3)
      /\ (nextCommitRound (mkRound 7 4294967295) = nextCommitRound (mkRound 7 3)
          <-> 7 = 7)
      /\ nextCommitRound (mkRound 7 4294967295)
         <> nextRejectRound (mkRound 7 4294967295)).
Proof.
  assert (W1 : wf_round (mkRound 7 4294967295)) by (unfold wf_round; cbn; lia).
  assert (W2 : wf_round (mkRound 7 3)) by (unfold wf_round; cbn; lia).
  split; [exact W1 | split; [exact W2 |]].
  exact (round_algebra (mkRound 7 4294967295) (mkRound 7 3) W1 W2).
Defined.

End RoundAlgebra.

(** *** The ordering gate's round switches *)

Section GateRoundSwitch.

Lemma sync_event_notifier_syncs (trace : list SynchronizationEvent) :
  sync_event_notifier (OnSync <$> trace) = trace.
Proof.
  unfold sync_event_notifier.
  induction trace as [|e trace IH]; cbn; [reflexivity | now f_equal].
Qed.

Lemma gate_round_switches_map (trace : list SynchronizationEvent) :
  gate_round_switches trace = round_switch_of <$> trace.
Proof.
  unfold gate_round_switches, gate_round_switch_events, rx_map.
  now rewrite sync_event_notifier_syncs.
Qed.

(** C2: for every synchronization event the gate receives the round switch
    to [nextCommitRound (round e) = (block_round + 1, 0)] on a commit and to
    [nextRejectRound (round e) = (block_round, reject_round + 1)] on a reject
    or on nothing (additions of [uint64_t] and [uint32_t]); the emission for
    nothing is the one for reject, and the ledger state is the event's. *)
Theorem gate_round_switch (r : Round) (ls : LedgerState) :
  round_switch_of (mkSynchronizationEvent r kCommit ls)
    = mkRoundSwitch (nextCommitRound r) ls
  /\ nextCommitRound r = mkRound (u64 (block_round r + 1)) 0
  /\ round_switch_of (mkSynchronizationEvent r kReject ls)
    = mkRoundSwitch (nextRejectRound r) ls
  /\ nextRejectRound r = mkRound (block_round r) (u32 (reject_round r + 1))
  /\ round_switch_of (mkSynchronizationEvent r kNothing ls)
    = round_switch_of (mkSynchronizationEvent r kReject ls)
  /\ (forall o, rs_ledger_state (round_switch_of (mkSynchronizationEvent r o ls))
                = ls)
  /\ (forall h, gate_round_switch_events h
                = round_switch_of <$> sync_event_notifier h)
  /\ (forall trace, gate_round_switches trace = round_switch_of <$> trace).
Proof.
  repeat split. apply gate_round_switches_map.
Qed.

(** Scenarios A and B of the specification. *)
Example scenario_commit ls :
  next_round (round_switch_of (mkSynchronizationEvent (mkRound 10 0) kCommit ls))
  = mkRound 11 0.
Proof. reflexivity. Qed.

Example scenario_reject ls :
  next_round (round_switch_of (mkSynchronizationEvent (mkRound 10 3) kReject ls))
  = mkRound 10 4.
Proof. reflexivity. Qed.

Lemma u64_succ_above z : z + 1 < 2 ^ 64 -> z < u64 (z + 1).
Proof.
  intros Hz. destruct (Z_lt_le_dec (z + 1) 0) as [Hn|Hp].
  - pose proof (u64_range (z + 1)). lia.
  - rewrite u64_small by lia. lia.
Qed.

Lemma u32_succ_above z : z + 1 < 2 ^ 32 -> z < u32 (z + 1).
Proof.
  intros Hz. destruct (Z_lt_le_dec (z + 1) 0) as [Hn|Hp].
  - pose proof (u32_range (z + 1)). lia.
  - rewrite u32_small by lia. lia.
Qed.

Lemma round_switch_advances e :
  no_overflow e -> round_lt (round e) (next_round (round_switch_of e)).
Proof.
  destruct e as [[b q] o ls]. unfold no_overflow, round_lt; cbn.
  destruct o; cbn; intros Hf.
  - left. now apply u64_succ_above.
  - right. split; [reflexivity | now apply u32_succ_above].
  - right. split; [reflexivity | now apply u32_succ_above].
Qed.

(** Away from the ends of the counters the additions are the plain ones. *)
Lemma round_switch_plain e :
  wf_round (round e) -> no_overflow e ->
  next_round (round_switch_of e)
  = match sync_outcome e with
    | kCommit => mkRound (block_round (round e) + 1) 0
    | kReject | kNothing =>
        mkRound (block_round (round e)) (reject_round (round e) + 1)
    end.
Proof.
  destruct e as [[b q] o ls]. unfold wf_round, no_overflow; cbn.
  intros [? ?] Hf.
  destruct o; cbn in *; unfold nextCommitRound, nextRejectRound; cbn;
    rewrite ?u64_small, ?u32_small by lia; reflexivity.
Qed.

(** C9, the claim as stated fails: the gate maps every event on its own, so
    a trace whose second event is on an older round makes the emitted rounds
    go down; and so does a trace that follows the switches when the reject
    round wraps around. *)
Lemma round_switches_not_increasing :
  let ls := mkLedgerState [] in
  let trace := [mkSynchronizationEvent (mkRound 10 0) kCommit ls;
                mkSynchronizationEvent (mkRound 5 0) kCommit ls] in
  let wrapping := [mkSynchronizationEvent (mkRound 5 4294967294) kReject ls;
                   mkSynchronizationEvent (mkRound 5 4294967295) kReject ls] in
  (next_round <$> gate_round_switches trace = [mkRound 11 0; mkRound 6 0]
   /\ ~ Sorted round_lt (next_round <$> gate_round_switches trace))
  /\ (next_round <$> gate_round_switches wrapping
      = [mkRound 5 4294967295; mkRound 5 0]
      /\ Sorted follows_switch wrapping
      /\ ~ Sorted round_lt (next_round <$> gate_round_switches wrapping)).
Proof.
  cbn zeta. rewrite !gate_round_switches_map. cbn. split; split.
  - reflexivity.
  - intros H. inversion H as [|? ? _ Hd]; subst.
    inversion Hd as [|? ? Hlt]; subst.
    apply round_ltb_lt in Hlt. vm_compute in Hlt. discriminate.
  - reflexivity.
  - split; [repeat constructor; left; reflexivity |].
    intros H. inversion H as [|? ? _ Hd]; subst.
    inversion Hd as [|? ? Hlt]; subst.
    apply round_ltb_lt in Hlt. vm_compute in Hlt. discriminate.
Qed.

(** C9 (amended): for a local trace of synchronization events in which no
    round counter overflows (the block round of an event with a commit, the
    reject round of an event with a reject or with nothing) and each event
    is on a round not below the round switched to on the previous event, the
    rounds of the emitted round switches are strictly increasing in the
    lexicographic order; every emitted round is strictly above the round of
    its event. *)
Theorem round_switches_increasing (trace : list SynchronizationEvent) :
  Forall no_overflow trace ->
  Sorted follows_switch trace ->
  Sorted round_lt (next_round <$> gate_round_switches trace)
  /\ Forall (fun e => round_lt (round e) (next_round (round_switch_of e))) trace.
Proof.
  intros Hno Hs. rewrite gate_round_switches_map. split.
  - induction Hs as [|e l Hs IH Hd]; cbn; [constructor |].
    inversion Hno as [|? ? He Hl]; subst.
    constructor; [now apply IH |].
    destruct Hd as [|e' l' Hf]; cbn; constructor.
    inversion Hl as [|? ? He' _]; subst.
    eapply round_le_lt_trans; [exact Hf |]. now apply round_switch_advances.
  - eapply Forall_impl; [exact Hno |]. intros e. apply round_switch_advances.
Qed.

(** A commit on the last reject round of block round 5, then a reject and
    nothing, each on the round just switched to. *)
Lemma round_switches_increasing_witness :
  let ls := mkLedgerState [] in
  let trace := [mkSynchronizationEvent (mkRound 5 4294967295) kCommit ls;
                mkSynchronizationEvent (mkRound 6 0) kReject ls;
                mkSynchronizationEvent (mkRound 6 1) kNothing ls] in
  Forall no_overflow trace /\ Sorted follows_switch trace
  /\ (Sorted round_lt (next_round <$> gate_round_switches trace)
      /\ Forall (fun e => round_lt (round e) (next_round (round_switch_of e)))
           trace).
Proof.
  cbn zeta.
  assert (Hno : Forall no_overflow
    [mkSynchronizationEvent (mkRound 5 4294967295) kCommit (mkLedgerState []);
     mkSynchronizationEvent (mkRound 6 0) kReject (mkLedgerState []);
     mkSynchronizationEvent (mkRound 6 1) kNothing (mkLedgerState [])]).
  { repeat (constructor; [unfold no_overflow; cbn; lia |]). constructor. }
  assert (Hs : Sorted follows_switch
    [mkSynchronizationEvent (mkRound 5 4294967295) kCommit (mkLedgerState []);
     mkSynchronizationEvent (mkRound 6 0) kReject (mkLedgerState []);
     mkSynchronizationEvent (mkRound 6 1) kNothing (mkLedgerState [])]).
  { repeat constructor; left; reflexivity. }
  split; [exact Hno | split; [exact Hs |]].
  exact (round_switches_increasing _ Hno Hs).
Defined.

End GateRoundSwitch.

(** *** The permutation oracle *)

Section PermutationOracle.
Context `{RandomEngineOps}.

Lemma swap_Permutation p i j : swap p i j ≡ₚ p.
Proof.
  unfold swap.
  destruct (p !! i) as [x|] eqn:Hi; [|reflexivity].
  destruct (p !! j) as [y|] eqn:Hj; [|reflexivity].
  now apply Permutation_insert_swap.
Qed.

Lemma shuffle_Permutation i : forall prng p, shuffle i prng p ≡ₚ p.
Proof.
  induction i as [|i IH]; intros prng p; cbn; [reflexivity |].
  destruct (prng_draw prng) as [x prng'].
  rewrite IH. apply swap_Permutation.
Qed.

Lemma generatePermutation_Permutation prng size :
  generatePermutation prng size ≡ₚ seq 0%nat size.
Proof. apply shuffle_Permutation. Qed.

Lemma generatePermutation_length prng size :
  length (generatePermutation prng size) = size.
Proof.
  rewrite (Permutation_length (generatePermutation_Permutation prng size)).
  apply length_seq.
Qed.

Lemma generatePermutation_lookup prng size k :
  (k < size)%nat ->
  exists i, generatePermutation prng size !! k = Some i /\ (i < size)%nat.
Proof.
  intros Hk.
  destruct (lookup_lt_is_Some_2 (generatePermutation prng size) k) as [i Hi].
  { now rewrite generatePermutation_length. }
  exists i. split; [exact Hi |].
  apply list_elem_of_lookup_2 in Hi.
  rewrite (generatePermutation_Permutation prng size) in Hi.
  apply elem_of_seq in Hi. lia.
Qed.

Lemma generatePermutation_NoDup prng size :
  NoDup (generatePermutation prng size).
Proof.
  rewrite (generatePermutation_Permutation prng size). apply NoDup_seq.
Qed.

End PermutationOracle.

(** *** The connection manager's role bindings *)

Section RoleBindings.
Context `{RandomEngineOps}.

Lemma getOsPeer_peer_at peers (permutations : RoundType -> list nat) rt k :
  peers <> [] ->
  (forall rt, exists prng,
      permutations rt = generatePermutation prng (length peers)) ->
  exists p, getOsPeer peers permutations rt k = Returns p
            /\ peer_at peers (permutations rt) k = Some p.
Proof.
  intros Hne Hperm. destruct (Hperm rt) as [prng Hp].
  assert (HN : (0 < length peers)%nat) by (destruct peers; cbn; [congruence | lia]).
  unfold getOsPeer, peer_at. rewrite Hp, generatePermutation_length.
  destruct (Z.eqb_spec (Z.of_nat (length peers)) 0) as [E|_]; [lia |].
  assert (Hk : (Z.to_nat (k mod Z.of_nat (length peers)) < length peers)%nat).
  { pose proof (Z.mod_pos_bound k (Z.of_nat (length peers))). lia. }
  destruct (generatePermutation_lookup prng _ _ Hk) as (i & -> & Hi).
  destruct (lookup_lt_is_Some_2 peers i Hi) as [p Hpi].
  exists p. cbn. rewrite Hpi. split; reflexivity.
Qed.

Lemma map_peers_returns (event : SynchronizationEvent) (h0 h1 h2 : Hash) :
  let peers := ledger_peers (ledger_state event) in
  let N := length peers in
  let current := bound_round event in
  let P0 := generatePermutation (makeSeededPrng h0) N in
  let P1 := generatePermutation (makeSeededPrng h1) N in
  let P2 := generatePermutation (makeSeededPrng h2) N in
  peers <> [] ->
  (P0 ≡ₚ seq 0%nat N /\ P1 ≡ₚ seq 0%nat N /\ P2 ≡ₚ seq 0%nat N)
  /\ exists cp, map_peers (event, (h0, h1, h2)) = Returns cp
     /\ peer_at peers P0 (reject_round current) = Some (kIssuer cp)
     /\ peer_at peers P0 (reject_round current + 1)
        = Some (kRejectRejectConsumer cp)
     /\ peer_at peers P1 0 = Some (kRejectCommitConsumer cp)
     /\ peer_at peers P1 1 = Some (kCommitRejectConsumer cp)
     /\ peer_at peers P2 0 = Some (kCommitCommitConsumer cp).
Proof.
  intros peers N current P0 P1 P2 Hne.
  split; [repeat split; apply generatePermutation_Permutation |].
  set (perms := fun rt : RoundType =>
    generatePermutation (makeSeededPrng (get_hash rt (h0, h1, h2))) N).
  assert (Hperm : forall rt, exists prng,
             perms rt = generatePermutation prng (length peers)).
  { intros rt. eexists. reflexivity. }
  destruct (getOsPeer_peer_at peers perms kCurrentRound
              (reject_round current + 1) Hne Hperm) as (rr & Err & Prr).
  destruct (getOsPeer_peer_at peers perms kNextRound 0 Hne Hperm)
    as (rc & Erc & Prc).
  destruct (getOsPeer_peer_at peers perms kNextRound 1 Hne Hperm)
    as (cr & Ecr & Pcr).
  destruct (getOsPeer_peer_at peers perms kRoundAfterNext 0 Hne Hperm)
    as (cc & Ecc & Pcc).
  destruct (getOsPeer_peer_at peers perms kCurrentRound
              (reject_round current) Hne Hperm) as (i & Ei & Pi).
  exists (mkCurrentPeers rr rc cr cc i).
  split; [| now repeat split].
  unfold map_peers. cbn [fst snd].
  fold peers. fold N. fold perms.
  change (match sync_outcome event with
          | kCommit => nextCommitRound (round event)
          | _ => nextRejectRound (round event)
          end) with current.
  unfold currentRejectRoundConsumer, kNextCommitRoundConsumer,
    kNextRejectRoundConsumer.
  rewrite Err; cbn. rewrite Erc; cbn. rewrite Ecr; cbn. rewrite Ecc; cbn.
  rewrite Ei; cbn. reflexivity.
Qed.


(** C7, the code at an event without ledger peers: the permutations are
    empty and the first role lookup, [reject_round % permutation.size()],
    divides by zero; there is no guard that refuses the event. *)
Theorem map_peers_no_peers (r : Round) (o : SynchronizationOutcomeType)
    (hashes : Hash * Hash * Hash) :
  map_peers (mkSynchronizationEvent r o (mkLedgerState []), hashes)
  = Undefined ModuloByZero.
Proof. reflexivity. Qed.

End RoleBindings.

Section RoleBindingsEvaluated.


End RoleBindingsEvaluated.

(** *** The three-hash window *)

Section HashWindow.
Context `{RandomEngineOps}.
Variables (i0 i1 : Hash).

Lemma windows_cons p y z l : windows (p :: y :: z :: l) = (p, y, z) :: windows (y :: z :: l).
Proof. reflexivity. Qed.

Lemma windows_snoc pre a b c :
  exists w, windows (pre ++ [a; b; c]) = w ++ [(a, b, c)].
Proof.
  induction pre as [|p pre IH].
  - exists []. reflexivity.
  - destruct IH as [w Hw].
    destruct pre as [|y [|z pre]]; cbn [app] in *;
      rewrite windows_cons, Hw;
      match goal with |- context [?t :: w ++ _] => exists (t :: w) end;
      reflexivity.
Qed.

Lemma three_most_recent_snoc pre a b c :
  three_most_recent (pre ++ [a; b; c]) = Some (a, b, c).
Proof.
  unfold three_most_recent. rewrite reverse_app. reflexivity.
Qed.

Lemma last_windows s : last (windows s) = three_most_recent s.
Proof.
  destruct (reverse s) as [|c [|b [|a r]]] eqn:E;
    apply (f_equal reverse) in E; rewrite reverse_involutive in E; subst s.
  - reflexivity.
  - reflexivity.
  - reflexivity.
  - rewrite !reverse_cons, <- !app_assoc. cbn [app].
    destruct (windows_snoc (reverse r) a b c) as [w ->].
    rewrite last_snoc. symmetry. apply three_most_recent_snoc.
Qed.

Lemma all_hashes_stream h : all_hashes i0 i1 h = spec_hash_stream i0 i1 h.
Proof.
  unfold all_hashes, rx_start_with, block_hashes, rx_map, blocks,
    commit_notifier, spec_hash_stream. cbn [app]. do 2 f_equal.
  induction h as [|[b|e] h IH]; cbn; [reflexivity | now f_equal | exact IH].
Qed.

Lemma latest_hashes_last h :
  last (latest_hashes i0 i1 h) = three_most_recent (spec_hash_stream i0 i1 h).
Proof.
  rewrite <- all_hashes_stream, <- last_windows. reflexivity.
Qed.

Lemma spec_hash_stream_sync seen e :
  spec_hash_stream i0 i1 (seen ++ [OnSync e]) = spec_hash_stream i0 i1 seen.
Proof.
  unfold spec_hash_stream. rewrite omap_app. cbn. now rewrite app_nil_r.
Qed.

Lemma pair_with_latest_nil {A B} (latest : option B) :
  pair_with_latest latest (@nil A) = [].
Proof. destruct latest; reflexivity. Qed.

Lemma sync_events_commit seen b :
  sync_events (seen ++ [OnCommit b]) = sync_events seen.
Proof.
  unfold sync_events, sync_event_notifier. rewrite omap_app. cbn.
  now rewrite app_nil_r.
Qed.

Lemma sync_events_sync seen e :
  sync_events (seen ++ [OnSync e]) = sync_events seen ++ [e].
Proof.
  unfold sync_events, sync_event_notifier. now rewrite omap_app.
Qed.

Lemma pairing_go seen rest :
  with_latest_from_go sync_events (latest_hashes i0 i1) seen rest
  = spec_pairing_go i0 i1 seen rest.
Proof.
  revert seen.
  induction rest as [|[b|e] rest IH]; intros seen;
    cbn [with_latest_from_go spec_pairing_go].
  - reflexivity.
  - rewrite IH, sync_events_commit, drop_all, pair_with_latest_nil.
    reflexivity.
  - rewrite IH, sync_events_sync, drop_app_length.
    rewrite latest_hashes_last, spec_hash_stream_sync.
    destruct (three_most_recent _); reflexivity.
Qed.

Lemma spec_pairing_no_commit seen events :
  commit_notifier seen = [] ->
  spec_pairing_go i0 i1 seen (OnSync <$> events) = [].
Proof.
  revert seen. induction events as [|e events IH]; intros seen Hc; cbn.
  - reflexivity.
  - rewrite IH.
    + unfold spec_hash_stream.
      replace (omap _ seen) with (block_hash <$> commit_notifier seen).
      * rewrite Hc. reflexivity.
      * unfold commit_notifier. clear.
        induction seen as [|[b|e'] seen IH]; cbn;
          [reflexivity | now f_equal | exact IH].
    + unfold commit_notifier in *. rewrite omap_app, Hc. reflexivity.
Qed.


End HashWindow.

Section HashWindowEvaluated.

(** One sync event before the first block, then block 1, a sync event,
    block 2 and block 3 back to back, a sync event. *)
Example window_trace :
  let ls := mkLedgerState [] in
  let e r := mkSynchronizationEvent (mkRound r 0) kCommit ls in
  let blk n hs := OnCommit (mkBlock n hs [] []) in
  sync_events_with_hashes "Ha" "Hb"
    [OnSync (e 1); blk 1 "H1"; OnSync (e 2); blk 2 "H2"; blk 3 "H3";
     OnSync (e 3)]
  = [(e 2, ("Ha", "Hb", "H1")); (e 3, ("H1", "H2", "H3"))].
Proof. reflexivity. Qed.

(** The constructor needs two initial hashes. *)
Example createConnectionManager_initial_hashes :
  (exists o, @createConnectionManager counter_engine ["Ha"; "Hb"] = Some o
             /\ o = @peers counter_engine "Ha" "Hb")
  /\ @createConnectionManager counter_engine ["Ha"] = None.
Proof. split; [eexists; split; reflexivity | reflexivity]. Qed.

(** The whole pipeline on three peers: nothing for the event that precedes
    the first block, bindings for the one that follows it. *)
Example peers_trace :
  let ps := [mkPeer "a:1" "A" None; mkPeer "b:1" "B" None;
             mkPeer "c:1" "C" None] in
  let e r := mkSynchronizationEvent (mkRound r 0) kCommit (mkLedgerState ps) in
  exists cp,
    @peers counter_engine "Ha" "Hb"
      [OnSync (e 1); OnCommit (mkBlock 1 "H1" [] []); OnSync (e 2)]
    = [Returns cp].
Proof. eexists. vm_compute. reflexivity. Qed.

End HashWindowEvaluated.

(** *** The eviction set of a committed block *)

Section Eviction.

Lemma foldl_insert_hashes {A} (f : A -> Hash) (l : list A) (acc : gset Hash) :
  foldl (fun hashes x => hashes ∪ {[ f x ]}) acc l = acc ∪ list_to_set (f <$> l).
Proof.
  revert acc. induction l as [|x l IH]; intros acc; cbn.
  - symmetry. apply (right_id_L ∅ (∪)).
  - rewrite IH. symmetry. apply (assoc_L (∪)).
Qed.

(** C6: for every committed block the set handed to the gate is exactly the
    union of the hashes of its transactions and of its rejected transaction
    hashes, one set per block; once the gate has removed it, the cache holds
    none of these hashes (and loses nothing else). *)
Theorem eviction_set_is_union (block : Block) (cache : gset Hash) :
  committed_hashes block
  = list_to_set (tx_hash <$> transactions block)
    ∪ list_to_set (rejected_transactions_hashes block)
  /\ (forall h, gate_eviction_sets h = committed_hashes <$> commit_notifier h)
  /\ (forall x, x ∈ committed_hashes block
               <-> (exists tx, tx ∈ transactions block /\ tx_hash tx = x)
                   \/ x ∈ rejected_transactions_hashes block)
  /\ gate_on_commit cache block ∩ committed_hashes block = ∅
  /\ gate_on_commit cache block ∪ (cache ∩ committed_hashes block) = cache.
Proof.
  assert (E : committed_hashes block
              = list_to_set (tx_hash <$> transactions block)
                ∪ list_to_set (rejected_transactions_hashes block)).
  { unfold committed_hashes.
    rewrite (foldl_insert_hashes tx_hash).
    rewrite (foldl_insert_hashes id), list_fmap_id.
    f_equal. apply (left_id_L ∅ (∪)). }
  split; [exact E |]. split; [reflexivity |]. split; [| split].
  - intros x. rewrite E, elem_of_union, !elem_of_list_to_set, list_elem_of_fmap.
    split; (intros [(tx & ? & ?) | ?]; [left; exists tx | right]); auto.
  - unfold gate_on_commit, cache_remove. apply set_eq. intros x.
    rewrite elem_of_intersection, elem_of_difference, elem_of_empty. tauto.
  - unfold gate_on_commit, cache_remove.
    apply set_eq. intros x. rewrite elem_of_union, elem_of_difference,
      elem_of_intersection.
    destruct (decide (x ∈ committed_hashes block)); tauto.
Qed.

Example eviction_example :
  gate_on_commit {[ "t1"; "t2"; "t3"; "t4" ]}
    (mkBlock 7 "H7" [mkTransaction "t1"; mkTransaction "t9"] ["t3"; "t1"])
  = {[ "t2"; "t4" ]}.
Proof. vm_compute. reflexivity. Qed.

End Eviction.

(** *** The vote transport *)

Section VoteTransport.
Context `{Collaborators}.

Lemma round_eqb_eq a b : round_eqb a b = true <-> a = b.
Proof.
  destruct a as [ba ra], b as [bb rb]. unfold round_eqb; cbn.
  rewrite andb_true_iff, !Z.eqb_eq. split; [intros [-> ->] | intros [= -> ->]]; auto.
Qed.

(** [sameKeys] on a non-empty list: all votes are on one round. *)
Lemma sameKeys_spec (votes : list VoteMessage) :
  votes <> [] ->
  sameKeys votes = true
  <-> forall v w, v ∈ votes -> w ∈ votes -> vote_round v = vote_round w.
Proof.
  destruct votes as [|first votes]; [congruence | intros _].
  unfold sameKeys. rewrite forallb_forall. split.
  - intros Hall v w Hv Hw.
    apply list_elem_of_In, Hall, round_eqb_eq in Hv.
    apply list_elem_of_In, Hall, round_eqb_eq in Hw. congruence.
  - intros Hall v Hv. apply round_eqb_eq, Hall; [left | now apply list_elem_of_In].
Qed.

Lemma sameKeys_iff (votes : list VoteMessage) :
  sameKeys votes = true
  <-> votes <> []
      /\ forall v w, v ∈ votes -> w ∈ votes -> vote_round v = vote_round w.
Proof.
  destruct votes as [|v votes].
  - cbn. split; [discriminate | intros [? _]; congruence].
  - rewrite sameKeys_spec by discriminate. split; [split; [discriminate | auto] | tauto].
Qed.

(** The outcomes of the rpc, by the votes that could be read. *)
Lemma SendState_empty (self : NetworkImpl) (request : list PbVote) :
  omap deserializeVote request = [] ->
  SendState self request = (CANCELLED, [Log lvl_info]).
Proof. unfold SendState. now intros ->. Qed.

Lemma SendState_mixed (self : NetworkImpl) (request : list PbVote) :
  sameKeys (omap deserializeVote request) = false ->
  SendState self request = (CANCELLED, [Log lvl_info]).
Proof.
  unfold SendState. intros ->. now destruct (omap deserializeVote request).
Qed.

Lemma SendState_accepted (self : NetworkImpl) (request : list PbVote) :
  sameKeys (omap deserializeVote request) = true ->
  SendState self request
  = (OK, Log lvl_info ::
         match handler_ self with
         | Some notifications =>
             [OnState notifications (omap deserializeVote request)]
         | None => [Log lvl_error]
         end).
Proof.
  unfold SendState. intros Hk. rewrite Hk.
  destruct (omap deserializeVote request); [discriminate | reflexivity].
Qed.

Lemma SendState_ext (self : NetworkImpl) (r1 r2 : list PbVote) :
  omap deserializeVote r1 = omap deserializeVote r2 ->
  SendState self r1 = SendState self r2.
Proof. unfold SendState. now intros ->. Qed.

Lemma SendState_one_round (self : NetworkImpl) (handler : Handler)
    (request : list PbVote) :
  handler_ self = Some handler ->
  omap deserializeVote request <> [] ->
  (forall v w, v ∈ omap deserializeVote request ->
               w ∈ omap deserializeVote request ->
               vote_round v = vote_round w) ->
  SendState self request
  = (OK, [Log lvl_info; OnState handler (omap deserializeVote request)]).
Proof.
  intros Hh Hne Hone. rewrite SendState_accepted, Hh; [reflexivity |].
  now apply sameKeys_spec.
Qed.

(** C4: with a handler subscribed, the rpc returns OK and hands the votes it
    read to that handler if and only if these votes are non-empty and all on
    one (block_round, reject_round); otherwise it returns CANCELLED and calls
    no handler. *)
Theorem receive_state_accepts_iff (self : NetworkImpl) (handler : Handler)
    (request : list PbVote) :
  handler_ self = Some handler ->
  let state := omap deserializeVote request in
  let one_round :=
    forall v w, v ∈ state -> w ∈ state -> vote_round v = vote_round w in
  (((SendState self request).1 = OK
    /\ OnState handler state ∈ (SendState self request).2)
   <-> (state <> [] /\ one_round))
  /\ ((SendState self request).1 = OK <-> (state <> [] /\ one_round))
  /\ (~ (state <> [] /\ one_round) ->
      (SendState self request).1 = CANCELLED
      /\ Forall (fun a => is_onState a = false) (SendState self request).2)
  /\ ((state <> [] /\ one_round) ->
      SendState self request = (OK, [Log lvl_info; OnState handler state])).
Proof.
  intros Hh state one_round.
  pose proof (sameKeys_iff state) as Hk. fold one_round in Hk.
  destruct (sameKeys state) eqn:Ek.
  - assert (Hy : state <> [] /\ one_round) by now apply Hk.
    unfold state in Ek. rewrite (SendState_accepted _ _ Ek), Hh. fold state.
    cbn [fst snd]. split; [split | split; [split | split]].
    + intros _. exact Hy.
    + intros _. split; [reflexivity |].
      apply list_elem_of_further, list_elem_of_here.
    + intros _. exact Hy.
    + intros _. reflexivity.
    + intros Hn. now destruct Hn.
    + intros _. reflexivity.
  - assert (Hn : ~ (state <> [] /\ one_round)).
    { intros Hy. apply Hk in Hy. discriminate. }
    unfold state in Ek. rewrite (SendState_mixed _ _ Ek). cbn [fst snd].
    split; [split | split; [split | split]].
    + intros [[=] _].
    + intros Hy. now destruct Hn.
    + intros [=].
    + intros Hy. now destruct Hn.
    + intros _. split; [reflexivity | repeat constructor].
    + intros Hy. now destruct Hn.
Qed.

(** C10: the rpc looks at the votes that deserialize only and skips the
    others without a trace. A bundle none of whose votes deserializes is
    rejected with CANCELLED like an empty one, and a bundle whose readable
    votes are non-empty and on one round is accepted, its handler getting
    exactly the readable votes, in order. *)
Theorem receive_state_skips_unreadable (self : NetworkImpl)
    (handler : Handler) (request : list PbVote) :
  handler_ self = Some handler ->
  let state := omap deserializeVote request in
  let readable := filter (fun pb => is_Some (deserializeVote pb)) request in
  SendState self request = SendState self readable
  /\ (Forall (fun pb => deserializeVote pb = None) request ->
      SendState self request = (CANCELLED, [Log lvl_info])
      /\ SendState self request = SendState self [])
  /\ (state <> [] ->
      (forall v w, v ∈ state -> w ∈ state -> vote_round v = vote_round w) ->
      SendState self request = (OK, [Log lvl_info; OnState handler state])
      /\ forall v, v ∈ state
                   <-> exists pb, pb ∈ request /\ deserializeVote pb = Some v).
Proof.
  intros Hh state readable.
  assert (Er : omap deserializeVote request = omap deserializeVote readable).
  { unfold readable. clear. induction request as [|pb l IH]; [reflexivity |].
    rewrite filter_cons. cbn [omap list_omap].
    destruct (deserializeVote pb) as [v|] eqn:E.
    - rewrite decide_True by eauto. cbn. rewrite E. now f_equal.
    - rewrite decide_False by (intros [? [=]]). exact IH. }
  split; [| split].
  - now apply SendState_ext.
  - intros Hall.
    assert (E : omap deserializeVote request = []).
    { clear -Hall. induction Hall as [|pb l Hpb _ IH]; [reflexivity |].
      cbn. now rewrite Hpb. }
    split; [now apply SendState_empty | now apply SendState_ext].
  - intros Hne Hone. split.
    + now apply SendState_one_round.
    + intros v. unfold state. rewrite list_elem_of_omap. reflexivity.
Qed.

Lemma SendState_not_outbound (self : NetworkImpl) (request : list PbVote) :
  Forall (fun a => outbound a = false) (SendState self request).2.
Proof.
  unfold SendState. destruct (omap deserializeVote request) as [|v st].
  - repeat constructor.
  - destruct (sameKeys (v :: st)); cbn; [| repeat constructor].
    destruct (handler_ self); repeat constructor.
Qed.

Lemma step_keeps_stop (self : NetworkImpl) (c : Call) :
  stop_requested_ self = true ->
  stop_requested_ (step self c).1 = true
  /\ Forall (fun a => outbound a = false) (step self c).2.
Proof.
  intros Hs. destruct c as [handler| |to state|request|]; cbn [step fst snd].
  - split; [exact Hs | constructor].
  - split; [reflexivity | constructor].
  - unfold sendState. rewrite Hs. split; [reflexivity | repeat constructor].
  - split; [exact Hs | apply SendState_not_outbound].
  - split; [exact Hs | constructor].
Qed.

Lemma run_keeps_stop (calls : list Call) : forall self : NetworkImpl,
  stop_requested_ self = true ->
  stop_requested_ (run self calls).1 = true
  /\ Forall (fun a => outbound a = false) (run self calls).2.
Proof.
  induction calls as [|c calls IH]; intros self Hs; cbn.
  - split; [assumption | constructor].
  - destruct (step_keeps_stop self c Hs) as [Hs' Ha].
    destruct (step self c) as [self' acts]. cbn in Hs', Ha.
    destruct (IH self' Hs') as [Hs'' Ha'].
    destruct (run self' calls) as [self'' acts']. cbn in *.
    split; [assumption | now apply Forall_app].
Qed.

(** C5: once [stop] has been called, [sendState] only logs a warning: it
    builds no outbound [State] request and does not call the client factory,
    whatever calls came in between, since no call clears the flag; a second
    [stop] changes nothing. *)
Theorem stop_silences_sendState (self : NetworkImpl) (calls : list Call)
    (to : Peer) (state : list VoteMessage) :
  sendState (stop self) to state = [Log lvl_warn]
  /\ stop (stop self) = stop self
  /\ stop_requested_ (run (stop self) calls).1 = true
  /\ sendState (run (stop self) calls).1 to state = [Log lvl_warn]
  /\ Forall (fun a => outbound a = false) (run (stop self) calls).2
  /\ Forall (fun a => outbound a = false)
            (run (stop self) (calls ++ [call_sendState to state])).2.
Proof.
  assert (Hs : stop_requested_ (stop self) = true) by reflexivity.
  destruct (run_keeps_stop calls (stop self) Hs) as [Hr Ha].
  repeat split.
  - exact Hr.
  - unfold sendState. now rewrite Hr.
  - exact Ha.
  - now apply run_keeps_stop.
Qed.

End VoteTransport.

Section VoteTransportEvaluated.
#[local] Existing Instance plain_collaborators.

(** Before [stop] the same call does reach the client factory. *)
Example sendState_before_stop :
  let v := mkVoteMessage "p" "s" (mkRound 5 0) in
  let to := mkPeer "a:1" "A" None in
  sendState new_network to [v]
  = [BuildRequest [Some v]; CreateClient to; Log lvl_info;
     AsyncSendState to [Some v]]
  /\ (run new_network [call_stop; call_subscribe (H:=plain_collaborators) 7%nat; call_sendState to [v]]).2
     = [Log lvl_warn].
Proof. split; reflexivity. Qed.

(** Scenario E of the specification: a bundle on rounds (5,0) and (5,1). *)
Example receive_state_mixed_rounds :
  let v1 := mkVoteMessage "p" "s1" (mkRound 5 0) in
  let v2 := mkVoteMessage "p" "s2" (mkRound 5 1) in
  SendState (subscribe (H:=plain_collaborators) new_network 7%nat) [Some v1; Some v2]
  = (CANCELLED, [Log lvl_info]).
Proof. reflexivity. Qed.

(** Without a subscriber an acceptable bundle is answered with OK and
    dropped. *)
Example receive_state_no_subscriber :
  let v1 := mkVoteMessage "p" "s1" (mkRound 5 0) in
  SendState new_network [Some v1] = (OK, [Log lvl_info; Log lvl_error]).
Proof. reflexivity. Qed.

(** Two votes on round (5, 0) reach the subscribed handler. *)
Lemma receive_state_accepts_iff_witness :
  let v1 := mkVoteMessage "p" "s1" (mkRound 5 0) in
  let v2 := mkVoteMessage "p" "s2" (mkRound 5 0) in
  handler_ (subscribe (H:=plain_collaborators) new_network 7%nat) = Some 7%nat
  /\ SendState (subscribe (H:=plain_collaborators) new_network 7%nat) [Some v1; Some v2]
     = (OK, [Log lvl_info; OnState (H:=plain_collaborators) 7%nat [v1; v2]]).
Proof.
  cbn zeta. split; [reflexivity |].
  destruct (@receive_state_accepts_iff plain_collaborators
              (subscribe (H:=plain_collaborators) new_network 7%nat) 7%nat
              [Some (mkVoteMessage "p" "s1" (mkRound 5 0));
               Some (mkVoteMessage "p" "s2" (mkRound 5 0))] eq_refl)
    as (_ & _ & _ & Hacc).
  apply Hacc. apply sameKeys_iff. reflexivity.
Defined.

(** Unreadable votes between two votes on round (5, 0), and alone. *)
Lemma receive_state_skips_unreadable_witness :
  let v1 := mkVoteMessage "p" "s1" (mkRound 5 0) in
  let v2 := mkVoteMessage "p" "s2" (mkRound 5 0) in
  handler_ (subscribe (H:=plain_collaborators) new_network 7%nat) = Some 7%nat
  /\ SendState (subscribe (H:=plain_collaborators) new_network 7%nat) [None; Some v1; None; Some v2]
     = (OK, [Log lvl_info; OnState (H:=plain_collaborators) 7%nat [v1; v2]])
  /\ SendState (subscribe (H:=plain_collaborators) new_network 7%nat) [None; None]
     = (CANCELLED, [Log lvl_info]).
Proof.
  cbn zeta. split; [reflexivity |].
  destruct (@receive_state_skips_unreadable plain_collaborators
              (subscribe (H:=plain_collaborators) new_network 7%nat) 7%nat
              [None; Some (mkVoteMessage "p" "s1" (mkRound 5 0));
               None; Some (mkVoteMessage "p" "s2" (mkRound 5 0))] eq_refl)
    as (_ & _ & Hacc).
  destruct (@receive_state_skips_unreadable plain_collaborators
              (subscribe (H:=plain_collaborators) new_network 7%nat) 7%nat [None; None] eq_refl)
    as (_ & Hrej & _).
  split.
  - apply Hacc; [discriminate |]. apply sameKeys_iff. reflexivity.
  - apply Hrej. repeat constructor.
Defined.

End VoteTransportEvaluated.

(** ** Part III: further properties of the code *)

(** *** The dataflow of createConnectionManager *)

Section DataflowProperties.
Context `{RandomEngineOps}.

Lemma latest_hashes_windows i0 i1 h :
  latest_hashes i0 i1 h
  = windows (i0 :: i1 :: (block_hash <$> commit_notifier h)).
Proof. reflexivity. Qed.

Lemma windows_length x y hs : length (windows (x :: y :: hs)) = length hs.
Proof.
  revert x y. induction hs as [|c hs IH]; intros x y; [reflexivity |].
  rewrite windows_cons. cbn [length]. now rewrite IH.
Qed.

Lemma windows_lookup x y hs k c :
  hs !! k = Some c ->
  exists a b, (x :: y :: hs) !! k = Some a
              /\ (x :: y :: hs) !! S k = Some b
              /\ windows (x :: y :: hs) !! k = Some (a, b, c).
Proof.
  revert x y k. induction hs as [|c' hs IH]; intros x y k Hk; [discriminate |].
  rewrite windows_cons. destruct k as [|k].
  - injection Hk as ->. exists x, y. repeat split.
  - destruct (IH y c' k Hk) as (a & b & Ha & Hb & Hw).
    exists a, b. repeat split; assumption.
Qed.

Lemma drop2_windows x y hs : drop 2 (windows (x :: y :: hs)) = windows hs.
Proof.
  destruct hs as [|a [|b hs]]; reflexivity.
Qed.

(** Every committed block completes one triple: the block's hash preceded
    by the two hashes delivered before it. *)
Theorem latest_hashes_per_block (i0 i1 : Hash) (h : list Notification)
    (k : nat) (b : Block) :
  commit_notifier h !! k = Some b ->
  length (latest_hashes i0 i1 h) = length (commit_notifier h)
  /\ exists x y, all_hashes i0 i1 h !! k = Some x
                 /\ all_hashes i0 i1 h !! S k = Some y
                 /\ all_hashes i0 i1 h !! S (S k) = Some (block_hash b)
                 /\ latest_hashes i0 i1 h !! k = Some (x, y, block_hash b).
Proof.
  intros Hk. rewrite latest_hashes_windows. split.
  - now rewrite windows_length, length_fmap.
  - assert (Hc : (block_hash <$> commit_notifier h) !! k = Some (block_hash b))
      by now rewrite list_lookup_fmap, Hk.
    destruct (windows_lookup i0 i1 _ k _ Hc) as (x & y & Hx & Hy & Hw).
    exists x, y. repeat split; assumption.
Qed.

(** Two blocks between sync events: block "H2" completes ("Hb","H1","H2"). *)
Lemma latest_hashes_per_block_witness :
  let h := [OnCommit (mkBlock 1 "H1" [] []);
            OnSync (mkSynchronizationEvent (mkRound 1 0) kCommit
                      (mkLedgerState []));
            OnCommit (mkBlock 2 "H2" [] [])] in
  commit_notifier h !! 1%nat = Some (mkBlock 2 "H2" [] [])
  /\ latest_hashes "Ha" "Hb" h !! 1%nat = Some ("Hb", "H1", "H2").
Proof.
  cbn zeta. split; [reflexivity |].
  destruct (latest_hashes_per_block "Ha" "Hb"
              [OnCommit (mkBlock 1 "H1" [] []);
               OnSync (mkSynchronizationEvent (mkRound 1 0) kCommit
                         (mkLedgerState []));
               OnCommit (mkBlock 2 "H2" [] [])] 1 (mkBlock 2 "H2" [] [])
              eq_refl) as (_ & x & y & Hx & Hy & _ & Hw).
  injection Hx as <-. injection Hy as <-. exact Hw.
Defined.

(** From the third committed block on the initial hashes no longer matter:
    the triples are made of block hashes only, so the latest triple is the
    same whatever the two initial hashes were. *)
Theorem initial_hashes_forgotten (i0 i1 j0 j1 : Hash) (h : list Notification) :
  (3 <= length (commit_notifier h))%nat ->
  last (latest_hashes i0 i1 h) = last (latest_hashes j0 j1 h)
  /\ drop 2 (latest_hashes i0 i1 h) = drop 2 (latest_hashes j0 j1 h)
  /\ drop 2 (latest_hashes i0 i1 h) = windows (block_hashes h).
Proof.
  intros Hn. rewrite !latest_hashes_windows.
  assert (Hd : forall x y,
    last (windows (x :: y :: (block_hash <$> commit_notifier h)))
    = last (windows (block_hash <$> commit_notifier h))).
  { intros x y.
    rewrite <- (drop2_windows x y (block_hash <$> commit_notifier h)).
    rewrite !last_lookup, lookup_drop, length_drop, windows_length, length_fmap.
    f_equal. lia. }
  split; [now rewrite !Hd |]. now rewrite !drop2_windows.
Qed.

Lemma initial_hashes_forgotten_witness :
  let h := [OnCommit (mkBlock 1 "H1" [] []); OnCommit (mkBlock 2 "H2" [] []);
            OnCommit (mkBlock 3 "H3" [] [])] in
  (3 <= length (commit_notifier h))%nat
  /\ last (latest_hashes "Ha" "Hb" h) = last (latest_hashes "Hc" "Hd" h).
Proof.
  cbn zeta. split; [cbn; lia |].
  apply (initial_hashes_forgotten "Ha" "Hb" "Hc" "Hd"). cbn. lia.
Defined.

Lemma sync_events_with_hashes_pairing i0 i1 h :
  sync_events_with_hashes i0 i1 h = spec_pairing i0 i1 h.
Proof.
  unfold sync_events_with_hashes, rx_with_latest_from, spec_pairing.
  rewrite pairing_go.
  change (sync_events []) with (@nil SynchronizationEvent).
  now rewrite pair_with_latest_nil.
Qed.

Lemma spec_pairing_go_app i0 i1 seen l1 l2 :
  spec_pairing_go i0 i1 seen (l1 ++ l2)
  = spec_pairing_go i0 i1 seen l1 ++ spec_pairing_go i0 i1 (seen ++ l1) l2.
Proof.
  revert seen. induction l1 as [|[b|e] l1 IH]; intros seen;
    cbn [app spec_pairing_go].
  - now rewrite app_nil_r.
  - rewrite IH, <- app_assoc. reflexivity.
  - rewrite IH, <- !app_assoc. reflexivity.
Qed.

Lemma three_most_recent_is_Some s :
  (3 <= length s)%nat -> is_Some (three_most_recent s).
Proof.
  intros Hs. unfold three_most_recent.
  rewrite <- length_reverse in Hs.
  destruct (reverse s) as [|c [|b [|a r]]]; cbn in Hs; try lia. eauto.
Qed.

Lemma spec_pairing_go_after_commit i0 i1 seen rest :
  commit_notifier seen <> [] ->
  (spec_pairing_go i0 i1 seen rest).*1 = sync_event_notifier rest.
Proof.
  revert seen. induction rest as [|[b|e] rest IH]; intros seen Hc;
    cbn [spec_pairing_go].
  - reflexivity.
  - apply IH. unfold commit_notifier in *. rewrite omap_app.
    intros E. now apply app_eq_nil in E as [? _].
  - destruct (three_most_recent_is_Some (spec_hash_stream i0 i1 seen))
      as [t Ht].
    { rewrite <- all_hashes_stream. unfold all_hashes, rx_start_with,
        block_hashes, rx_map, blocks. rewrite length_app, length_fmap.
      destruct (commit_notifier seen); [congruence | cbn; lia]. }
    rewrite Ht. cbn. f_equal. apply IH.
    unfold commit_notifier in *. rewrite omap_app.
    intros E. now apply app_eq_nil in E as [? _].
Qed.

Lemma paired_events_after_first_commit (i0 i1 : Hash)
    (early : list SynchronizationEvent) (b : Block) (h : list Notification) :
  (sync_events_with_hashes i0 i1 ((OnSync <$> early) ++ OnCommit b :: h)).*1
  = sync_event_notifier h.
Proof.
  rewrite sync_events_with_hashes_pairing. unfold spec_pairing.
  rewrite spec_pairing_go_app, spec_pairing_no_commit by reflexivity.
  cbn [app spec_pairing_go].
  apply spec_pairing_go_after_commit.
  unfold commit_notifier. rewrite omap_app. cbn.
  intros E. apply app_eq_nil in E as [_ ?]. discriminate.
Qed.

(** [with_latest_from] drops every sync event that arrives before the first
    committed block and passes on every later one, once and in order. *)
Theorem sync_events_passed_after_first_commit (i0 i1 : Hash)
    (early : list SynchronizationEvent) (b : Block) (h : list Notification) :
  (sync_events_with_hashes i0 i1 ((OnSync <$> early) ++ OnCommit b :: h)).*1
  = sync_event_notifier h
  /\ length (peers i0 i1 ((OnSync <$> early) ++ OnCommit b :: h))
     = length (sync_event_notifier h).
Proof.
  pose proof (paired_events_after_first_commit i0 i1 early b h) as E.
  split; [exact E |].
  unfold peers, rx_map. rewrite length_fmap, <- E. now rewrite length_fmap.
Qed.

(** The gate gets a round switch for every sync event, the connection
    manager bindings only for those after the first committed block; from
    there on the two streams come from the same events, in the same order. *)
Theorem round_switches_align_with_bindings (i0 i1 : Hash)
    (early : list SynchronizationEvent) (b : Block) (h : list Notification) :
  round_switch_of
    <$> (sync_events_with_hashes i0 i1
           ((OnSync <$> early) ++ OnCommit b :: h)).*1
  = drop (length early)
         (gate_round_switch_events ((OnSync <$> early) ++ OnCommit b :: h)).
Proof.
  rewrite paired_events_after_first_commit.
  unfold gate_round_switch_events, rx_map, sync_event_notifier.
  rewrite omap_app. fold sync_event_notifier.
  rewrite sync_event_notifier_syncs. cbn [omap list_omap].
  rewrite fmap_app, drop_app_length'; [reflexivity | now rewrite length_fmap].
Qed.

(** [initial_hashes.at(0)] and [initial_hashes.at(1)]: the constructor needs
    two initial hashes and looks at no further one. *)
Theorem createConnectionManager_two_hashes (initial_hashes : list Hash) :
  (is_Some (createConnectionManager initial_hashes)
   <-> (2 <= length initial_hashes)%nat)
  /\ (forall a b rest,
        createConnectionManager (a :: b :: rest) = Some (peers a b)).
Proof.
  split; [| reflexivity].
  destruct initial_hashes as [|a [|b rest]]; cbn.
  - split; [intros [? [=]] | lia].
  - split; [intros [? [=]] | lia].
  - split; [lia | eauto].
Qed.

End DataflowProperties.

(** *** The role bindings of map_peers *)

Section RoleBindingProperties.
Context `{RandomEngineOps}.

Lemma peer_at_elem (ps : list Peer) (P : list nat) (k : Z) (p : Peer) :
  peer_at ps P k = Some p -> p ∈ ps.
Proof.
  unfold peer_at. destruct (P !! _) as [i|]; cbn; [| discriminate].
  apply list_elem_of_lookup_2.
Qed.

Lemma map_peers_Returns_nonempty event hashes cp :
  map_peers (event, hashes) = Returns cp ->
  ledger_peers (ledger_state event) <> [].
Proof.
  destruct event as [r o [ps]]. destruct ps; [discriminate | discriminate].
Qed.

(** [map_peers] goes wrong for an empty peer list only, and then by the
    modulo by zero: with one peer or more it returns bindings and never
    indexes a vector out of range. *)
Theorem map_peers_faults_iff_no_peers (event : SynchronizationEvent)
    (hashes : Hash * Hash * Hash) :
  ((exists cp, map_peers (event, hashes) = Returns cp)
   <-> ledger_peers (ledger_state event) <> [])
  /\ (map_peers (event, hashes) = Undefined ModuloByZero
      <-> ledger_peers (ledger_state event) = [])
  /\ map_peers (event, hashes) <> Undefined IndexOutOfRange.
Proof.
  destruct hashes as [[h0 h1] h2].
  destruct (ledger_peers (ledger_state event)) as [|p ps] eqn:E.
  - assert (Hm : map_peers (event, (h0, h1, h2)) = Undefined ModuloByZero).
    { destruct event as [r o [ps]]. cbn in E. subst ps. reflexivity. }
    rewrite Hm. repeat split; try congruence. intros [cp [=]].
  - assert (Hne : ledger_peers (ledger_state event) <> []) by congruence.
    destruct (map_peers_returns event h0 h1 h2 Hne) as (_ & cp & Hcp & _).
    rewrite Hcp. repeat split; try congruence. eauto.
Qed.

(** Every peer [map_peers] binds to a role is one of the ledger peers of
    the event. *)
Theorem bound_peers_are_ledger_peers (event : SynchronizationEvent)
    (hashes : Hash * Hash * Hash) (cp : CurrentPeers) :
  map_peers (event, hashes) = Returns cp ->
  let ps := ledger_peers (ledger_state event) in
  kIssuer cp ∈ ps /\ kRejectRejectConsumer cp ∈ ps
  /\ kRejectCommitConsumer cp ∈ ps /\ kCommitRejectConsumer cp ∈ ps
  /\ kCommitCommitConsumer cp ∈ ps.
Proof.
  intros Hcp ps. destruct hashes as [[h0 h1] h2].
  pose proof (map_peers_Returns_nonempty _ _ _ Hcp) as Hne.
  destruct (map_peers_returns event h0 h1 h2 Hne)
    as (_ & cp' & Hcp' & Hi & Hrr & Hrc & Hcr & Hcc).
  rewrite Hcp in Hcp'. injection Hcp' as <-.
  repeat split; eapply peer_at_elem; eassumption.
Qed.

(** With a single ledger peer every role is bound to that peer, whatever the
    round, the outcome and the hashes. *)
Theorem single_peer_takes_all_roles (r : Round)
    (o : SynchronizationOutcomeType) (p : Peer) (hashes : Hash * Hash * Hash) :
  map_peers (mkSynchronizationEvent r o (mkLedgerState [p]), hashes)
  = Returns (mkCurrentPeers p p p p p).
Proof.
  destruct hashes as [[h0 h1] h2].
  set (event := mkSynchronizationEvent r o (mkLedgerState [p])).
  destruct (map_peers_returns event h0 h1 h2)
    as (_ & cp & Hcp & Hi & Hrr & Hrc & Hcr & Hcc); [discriminate |].
  rewrite Hcp. f_equal.
  apply peer_at_elem, list_elem_of_singleton in Hi, Hrr, Hrc, Hcr, Hcc.
  destruct cp; cbn in *; congruence.
Qed.

Lemma peer_at_same_peer (ps : list Peer) (prng : RandomEngine) (k1 k2 : Z)
    (p1 p2 : Peer) :
  NoDup ps ->
  peer_at ps (generatePermutation prng (length ps)) k1 = Some p1 ->
  peer_at ps (generatePermutation prng (length ps)) k2 = Some p2 ->
  p1 = p2 <-> k1 mod Z.of_nat (length ps) = k2 mod Z.of_nat (length ps).
Proof.
  intros Hnd H1 H2. unfold peer_at in H1, H2.
  set (n := Z.of_nat (length ps)) in *.
  set (P := generatePermutation prng (length ps)) in *.
  destruct (P !! Z.to_nat (k1 mod n)) as [i1|] eqn:E1; [| discriminate].
  destruct (P !! Z.to_nat (k2 mod n)) as [i2|] eqn:E2; [| discriminate].
  cbn in H1, H2.
  assert (Hn : 0 < n).
  { apply lookup_lt_Some in H1. unfold n. lia. }
  pose proof (Z.mod_pos_bound k1 n Hn). pose proof (Z.mod_pos_bound k2 n Hn).
  split.
  - intros ->.
    assert (i1 = i2) by (apply (NoDup_lookup ps _ _ p2); assumption).
    subst i2.
    assert (E : Z.to_nat (k1 mod n) = Z.to_nat (k2 mod n)).
    { apply (NoDup_lookup P _ _ i1);
        [apply generatePermutation_NoDup | exact E1 | exact E2]. }
    apply Z2Nat.inj in E; lia.
  - intros E. rewrite E in E1. congruence.
Qed.

(** Among pairwise different ledger peers the reject-commit consumer and
    the commit-reject consumer, which are taken at the positions
    [kNextCommitRoundConsumer] and [kNextRejectRoundConsumer] of one
    permutation, are the same peer exactly when there is a single peer. *)
Theorem next_consumers_coincide_iff_single_peer (event : SynchronizationEvent)
    (hashes : Hash * Hash * Hash) (cp : CurrentPeers) :
  map_peers (event, hashes) = Returns cp ->
  NoDup (ledger_peers (ledger_state event)) ->
  kRejectCommitConsumer cp = kCommitRejectConsumer cp
  <-> length (ledger_peers (ledger_state event)) = 1%nat.
Proof.
  intros Hcp Hnd. destruct hashes as [[h0 h1] h2].
  pose proof (map_peers_Returns_nonempty _ _ _ Hcp) as Hne.
  destruct (map_peers_returns event h0 h1 h2 Hne)
    as (_ & cp' & Hcp' & _ & _ & Hrc & Hcr & _).
  rewrite Hcp in Hcp'. injection Hcp' as <-.
  set (ps := ledger_peers (ledger_state event)) in *.
  assert (HN : 1 <= Z.of_nat (length ps))
    by (destruct ps; cbn; [congruence | lia]).
  rewrite (peer_at_same_peer ps _ _ _ _ _ Hnd Hrc Hcr).
  rewrite Z.mod_0_l by lia. split.
  - intros E. destruct (Z.eq_dec (Z.of_nat (length ps)) 1) as [|Hn1]; [lia |].
    rewrite Z.mod_small in E by lia. discriminate.
  - intros E. rewrite E. reflexivity.
Qed.

(** The consumers of the rounds after the next commit or reject depend on
    the ledger peers and on the two newer hashes only: not on the round of
    the event, on its outcome or on the oldest hash. Reject and nothing give
    the same bindings altogether. *)
Theorem next_round_consumers_ignore_round (r r' : Round)
    (o o' : SynchronizationOutcomeType) (ls : LedgerState)
    (h0 h0' h1 h2 : Hash) :
  next_round_consumers
    <$> returned (map_peers (mkSynchronizationEvent r o ls, (h0, h1, h2)))
  = next_round_consumers
    <$> returned (map_peers (mkSynchronizationEvent r' o' ls, (h0', h1, h2)))
  /\ map_peers (mkSynchronizationEvent r kReject ls, (h0, h1, h2))
     = map_peers (mkSynchronizationEvent r kNothing ls, (h0, h1, h2)).
Proof.
  split; [| reflexivity].
  destruct ls as [[|p ps]]; [reflexivity |].
  destruct (map_peers_returns
              (mkSynchronizationEvent r o (mkLedgerState (p :: ps))) h0 h1 h2)
    as (_ & cp & -> & _ & _ & Hrc & Hcr & Hcc); [discriminate |].
  destruct (map_peers_returns
              (mkSynchronizationEvent r' o' (mkLedgerState (p :: ps)))
              h0' h1 h2)
    as (_ & cp' & -> & _ & _ & Hrc' & Hcr' & Hcc'); [discriminate |].
  cbn in *. unfold next_round_consumers. congruence.
Qed.

End RoleBindingProperties.

Section RoleBindingPropertiesEvaluated.

(** Two peers, after nothing on round (4, 1). *)
Lemma bound_peers_are_ledger_peers_witness :
  let A := mkPeer "a:1" "A" None in
  let B := mkPeer "b:1" "B" None in
  let event := mkSynchronizationEvent (mkRound 4 1) kNothing
                 (mkLedgerState [A; B]) in
  @map_peers counter_engine (event, ("x", "yy", "zzz"))
  = Returns (mkCurrentPeers B B A A A)
  /\ kRejectCommitConsumer (mkCurrentPeers B B A A A) ∈ [A; B].
Proof.
  cbn zeta.
  assert (E : @map_peers counter_engine
            (mkSynchronizationEvent (mkRound 4 1) kNothing
               (mkLedgerState [mkPeer "a:1" "A" None; mkPeer "b:1" "B" None]),
             ("x", "yy", "zzz"))
          = Returns (mkCurrentPeers (mkPeer "b:1" "B" None)
                       (mkPeer "b:1" "B" None) (mkPeer "a:1" "A" None)
                       (mkPeer "a:1" "A" None) (mkPeer "a:1" "A" None)))
    by (vm_compute; reflexivity).
  split; [exact E |].
  exact (proj1 (proj2 (proj2
           (@bound_peers_are_ledger_peers counter_engine _ _ _ E)))).
Defined.

(** Three peers: the two consumers differ. *)
Lemma next_consumers_coincide_iff_single_peer_witness :
  let A := mkPeer "a:1" "A" None in
  let B := mkPeer "b:1" "B" None in
  let C := mkPeer "c:1" "C" None in
  let event := mkSynchronizationEvent (mkRound 10 0) kCommit
                 (mkLedgerState [A; B; C]) in
  @map_peers counter_engine (event, ("h0", "h1", "h2"))
  = Returns (mkCurrentPeers B A B A A)
  /\ NoDup [A; B; C]
  /\ (kRejectCommitConsumer (mkCurrentPeers B A B A A)
      = kCommitRejectConsumer (mkCurrentPeers B A B A A)
      <-> 3%nat = 1%nat).
Proof.
  cbn zeta.
  assert (E : @map_peers counter_engine
            (mkSynchronizationEvent (mkRound 10 0) kCommit
               (mkLedgerState [mkPeer "a:1" "A" None; mkPeer "b:1" "B" None;
                               mkPeer "c:1" "C" None]),
             ("h0", "h1", "h2"))
          = Returns (mkCurrentPeers (mkPeer "b:1" "B" None)
                       (mkPeer "a:1" "A" None) (mkPeer "b:1" "B" None)
                       (mkPeer "a:1" "A" None) (mkPeer "a:1" "A" None)))
    by (vm_compute; reflexivity).
  assert (Hnd : NoDup [mkPeer "a:1" "A" None; mkPeer "b:1" "B" None;
                       mkPeer "c:1" "C" None]).
  { repeat constructor; rewrite ?elem_of_cons, ?elem_of_nil;
      intros Hx; repeat destruct Hx as [Hx|Hx]; try discriminate; exact Hx. }
  split; [exact E | split; [exact Hnd |]].
  exact (@next_consumers_coincide_iff_single_peer counter_engine _ _ _ E Hnd).
Defined.

End RoleBindingPropertiesEvaluated.

(** *** The eviction set, edge cases *)

Section EvictionProperties.

Lemma committed_hashes_union (block : Block) :
  committed_hashes block
  = list_to_set (tx_hash <$> transactions block)
    ∪ list_to_set (rejected_transactions_hashes block).
Proof.
  unfold committed_hashes.
  rewrite (foldl_insert_hashes tx_hash).
  rewrite (foldl_insert_hashes id), list_fmap_id.
  f_equal. apply (left_id_L ∅ (∪)).
Qed.

Lemma size_list_to_set_le (l : list Hash) :
  (size (list_to_set l : gset Hash) <= length l)%nat.
Proof.
  induction l as [|x l IH]; cbn [list_to_set length].
  - now rewrite size_empty.
  - rewrite size_union_alt, size_singleton.
    pose proof (subseteq_size (list_to_set l ∖ {[x]}) (list_to_set l : gset Hash)
                  (subseteq_difference_l _ _ _ (reflexivity _))).
    lia.
Qed.

(** A committed block evicts nothing exactly when it carries neither
    transactions nor rejected hashes, and never more hashes than it lists:
    hashes listed twice are evicted once. *)
Theorem eviction_set_edges (block : Block) :
  (committed_hashes block = ∅
   <-> transactions block = [] /\ rejected_transactions_hashes block = [])
  /\ (size (committed_hashes block)
      <= length (transactions block)
         + length (rejected_transactions_hashes block))%nat.
Proof.
  rewrite committed_hashes_union. split.
  - split.
    + intros E.
      destruct (transactions block) as [|tx txs] eqn:Et.
      * destruct (rejected_transactions_hashes block) as [|x xs] eqn:Er;
          [auto |].
        exfalso. apply (not_elem_of_empty (C:=gset Hash) x). rewrite <- E.
        apply elem_of_union_r, elem_of_list_to_set. left.
      * exfalso. apply (not_elem_of_empty (C:=gset Hash) (tx_hash tx)).
        rewrite <- E. apply elem_of_union_l, elem_of_list_to_set. left.
    + intros [-> ->]. cbn. apply (left_id_L ∅ (∪)).
  - rewrite size_union_alt.
    pose proof (size_list_to_set_le (tx_hash <$> transactions block)) as H1.
    rewrite length_fmap in H1.
    pose proof (size_list_to_set_le (rejected_transactions_hashes block)) as H2.
    pose proof (subseteq_size
      (list_to_set (rejected_transactions_hashes block)
         ∖ list_to_set (tx_hash <$> transactions block))
      (list_to_set (rejected_transactions_hashes block) : gset Hash)
      (subseteq_difference_l _ _ _ (reflexivity _))).
    lia.
Qed.

End EvictionProperties.

(** *** The vote transport over its life *)

Section TransportProperties.
Context `{Collaborators}.

Lemma run_app (l1 l2 : list Call) : forall self : NetworkImpl,
  run self (l1 ++ l2)
  = ((run (run self l1).1 l2).1, (run self l1).2 ++ (run (run self l1).1 l2).2).
Proof.
  induction l1 as [|c l1 IH]; intros self; cbn [app run fst snd].
  - now destruct (run self l2).
  - destruct (step self c) as [s1 a1]. rewrite IH.
    destruct (run s1 l1) as [s2 a2]. cbn [fst snd].
    destruct (run s2 l2) as [s3 a3]. cbn [fst snd]. now rewrite app_assoc.
Qed.

Lemma run_cons (c : Call) (l : list Call) (self : NetworkImpl) :
  run self (c :: l)
  = ((run (step self c).1 l).1, (step self c).2 ++ (run (step self c).1 l).2).
Proof.
  cbn [run]. destruct (step self c) as [s1 a1]. cbn [fst snd].
  now destruct (run s1 l).
Qed.

Lemma not_outbound_no_createClient (acts : list Action) :
  Forall (fun a => outbound a = false) acts ->
  List.filter is_createClient acts = [].
Proof.
  induction 1 as [|a acts Ha _ IH]; [reflexivity |].
  cbn. rewrite IH. destruct a; cbn in *; congruence.
Qed.

Lemma run_before_stop (calls : list Call) : forall self : NetworkImpl,
  stop_requested_ self = false ->
  Forall (fun c => is_stop c = false) calls ->
  stop_requested_ (run self calls).1 = false
  /\ length (List.filter is_createClient (run self calls).2)
     = length (List.filter is_sendState calls).
Proof.
  induction calls as [|c calls IH]; intros self Hs Hc; [split; [exact Hs | reflexivity] |].
  inversion Hc as [|? ? Hc1 Hc2]; subst.
  rewrite run_cons. cbn [fst snd].
  rewrite List.filter_app, length_app.
  destruct c as [handler| |to state|request|]; cbn [step fst snd is_sendState List.filter];
    try discriminate.
  - destruct (IH (subscribe self handler) Hs Hc2) as [E1 E2].
    split; [exact E1 | exact E2].
  - destruct (IH self Hs Hc2) as [E1 E2]. split; [exact E1 |].
    unfold sendState. rewrite Hs. cbn [List.filter is_createClient length].
    destruct (createClient to); cbn; now rewrite E2.
  - destruct (IH self Hs Hc2) as [E1 E2]. split; [exact E1 |].
    now rewrite (not_outbound_no_createClient _ (SendState_not_outbound _ _)).
  - destruct (IH (mkNetworkImpl None (stop_requested_ self)) Hs Hc2) as [E1 E2].
    split; [exact E1 | exact E2].
Qed.

(** Until the first [stop] every [sendState] asks the client factory for a
    client exactly once, whether or not a client can be made; from the
    [stop] on none does. *)
Theorem createClient_once_per_send_until_stop (self : NetworkImpl)
    (before after : list Call) :
  stop_requested_ self = false ->
  Forall (fun c => is_stop c = false) before ->
  length (List.filter is_createClient
            (run self (before ++ call_stop :: after)).2)
  = length (List.filter is_sendState before).
Proof.
  intros Hs Hb. rewrite run_app. cbn [snd].
  destruct (run_before_stop before self Hs Hb) as [_ E].
  rewrite List.filter_app, length_app, E.
  rewrite run_cons. cbn [step fst snd app].
  destruct (run_keeps_stop after (stop (run self before).1) eq_refl) as [_ Ha].
  rewrite (not_outbound_no_createClient _ Ha). cbn. lia.
Qed.

Lemma handed_over_app (a b : list Action) :
  handed_over (a ++ b) = handed_over a ++ handed_over b.
Proof. apply List.filter_app. Qed.

Lemma handed_over_sendState (self : NetworkImpl) to state :
  handed_over (sendState self to state) = [].
Proof.
  unfold sendState. destruct (stop_requested_ self); [reflexivity |].
  now destruct (createClient to).
Qed.

Lemma SendState_handler (s1 s2 : NetworkImpl) (request : list PbVote) :
  handler_ s1 = handler_ s2 -> SendState s1 request = SendState s2 request.
Proof. unfold SendState. now intros ->. Qed.

Lemma handed_over_without_stop (calls : list Call) :
  forall s1 s2 : NetworkImpl,
  handler_ s1 = handler_ s2 ->
  handed_over (run s1 calls).2
  = handed_over (run s2 (List.filter (fun c => negb (is_stop c)) calls)).2.
Proof.
  induction calls as [|c calls IH]; intros s1 s2 Hh; [reflexivity |].
  rewrite run_cons. cbn [snd]. rewrite handed_over_app.
  destruct c as [handler| |to state|request|];
    cbn [List.filter is_stop negb step fst snd];
    rewrite ?run_cons; cbn [step fst snd]; rewrite ?handed_over_app.
  - cbn [app]. apply IH. reflexivity.
  - cbn [app]. apply IH. exact Hh.
  - rewrite !handed_over_sendState. cbn [app]. now apply IH.
  - rewrite (SendState_handler s1 s2 _ Hh). f_equal. now apply IH.
  - cbn [app]. apply IH. reflexivity.
Qed.

(** [stop] gates sending only: the rpc answers as before, and over any
    sequence of calls the handlers are given exactly what they would be
    given had [stop] never been called. *)
Theorem stop_does_not_gate_reception (self : NetworkImpl)
    (calls : list Call) (request : list PbVote) :
  SendState (stop self) request = SendState self request
  /\ handed_over (run self calls).2
     = handed_over
         (run self (List.filter (fun c => negb (is_stop c)) calls)).2.
Proof.
  split; [reflexivity | now apply handed_over_without_stop].
Qed.

Ltac no_onState :=
  cbn [snd];
  repeat (apply List.Forall_cons; [intros ? ? [=] |]); apply List.Forall_nil.

Lemma SendState_hands_checked (self : NetworkImpl) (request : list PbVote) :
  Forall (fun a => forall handler state, a = OnState handler state ->
            state <> [] /\ sameKeys state = true
            /\ handler_ self = Some handler
            /\ state = omap deserializeVote request)
         (SendState self request).2.
Proof.
  unfold SendState.
  destruct (omap deserializeVote request) as [|v st] eqn:E; [no_onState |].
  destruct (sameKeys (v :: st)) eqn:Ek; cbn [negb snd]; [| no_onState].
  apply List.Forall_cons; [intros ? ? [=] |].
  destruct (handler_ self) as [handler|]; [| no_onState].
  apply List.Forall_cons; [| apply List.Forall_nil].
  intros ? ? [= <- <-]. repeat split; congruence.
Qed.

(** Whatever the sequence of calls, a handler is never given an empty vote
    list nor one that fails [sameKeys]. *)
Theorem handlers_get_checked_votes (self : NetworkImpl) (calls : list Call) :
  Forall (fun a => forall handler state, a = OnState handler state ->
            state <> [] /\ sameKeys state = true)
         (run self calls).2.
Proof.
  revert self. induction calls as [|c calls IH]; intros self; [constructor |].
  rewrite run_cons. cbn [snd]. apply Forall_app. split; [| apply IH].
  destruct c as [handler| |to state|request|]; cbn [step snd];
    try apply List.Forall_nil.
  - unfold sendState. destruct (stop_requested_ self); [no_onState |].
    destruct (createClient to); no_onState.
  - eapply Forall_impl; [apply SendState_hands_checked |].
    cbn. intros a Ha handler state E.
    destruct (Ha handler state E) as (? & ? & _). split; assumption.
Qed.

(** A later [subscribe] replaces the handler: whatever was called before,
    after [subscribe handler] the rpc acts as on a transport that was just
    made and subscribed to by [handler]. *)
Theorem latest_subscriber_is_served (self : NetworkImpl) (calls : list Call)
    (handler : Handler) (request : list PbVote) :
  (run self (calls ++ [call_subscribe handler; rpc_SendState request])).2
  = (run self calls).2 ++ (SendState (subscribe new_network handler) request).2.
Proof.
  rewrite run_app. cbn. rewrite app_nil_r. f_equal.
Qed.

(** Sender and receiver put together: when the converters read back what
    they wrote and a client to the peer can be made, a running sender builds
    the request, asks for the client, logs and posts the request, and the
    request posted for a list of votes that passes [sameKeys] is accepted by
    the receiver's rpc, whose handler gets the very votes sent. *)
Theorem sent_votes_are_received (sender receiver : NetworkImpl) (to : Peer)
    (client : Client) (handler : Handler) (state : list VoteMessage) :
  (forall v, deserializeVote (serializeVote v) = Some v) ->
  stop_requested_ sender = false ->
  createClient to = inl client ->
  handler_ receiver = Some handler ->
  sameKeys state = true ->
  exists request,
    sendState sender to state
    = [BuildRequest request; CreateClient to; Log lvl_info;
       AsyncSendState client request]
    /\ SendState receiver request = (OK, [Log lvl_info; OnState handler state]).
Proof.
  intros Hrt Hs Hc Hh Hk. exists (serializeVote <$> state). split.
  - unfold sendState. now rewrite Hs, Hc.
  - assert (E : omap deserializeVote (serializeVote <$> state) = state).
    { clear -Hrt. induction state as [|v st IH]; [reflexivity |].
      cbn. rewrite Hrt. cbn. now f_equal. }
    rewrite SendState_accepted by now rewrite E.
    now rewrite Hh, E.
Qed.

End TransportProperties.

Section TransportPropertiesEvaluated.
#[local] Existing Instance plain_collaborators.

(** Two sends, a stop, one more send: the factory is asked twice. *)
Lemma createClient_once_per_send_until_stop_witness :
  let v := mkVoteMessage "p" "s" (mkRound 5 0) in
  let to := mkPeer "a:1" "A" None in
  let before := [call_sendState to [v];
                 call_subscribe (H:=plain_collaborators) 7%nat;
                 call_sendState to []] in
  let after := [call_sendState to [v]] in
  stop_requested_ new_network = false
  /\ Forall (fun c => is_stop c = false) before
  /\ length (List.filter is_createClient
               (run new_network (before ++ call_stop :: after)).2) = 2%nat.
Proof.
  cbn zeta.
  assert (Hb : Forall (fun c => is_stop c = false)
    [call_sendState (mkPeer "a:1" "A" None)
       [mkVoteMessage "p" "s" (mkRound 5 0)];
     call_subscribe (H:=plain_collaborators) 7%nat;
     call_sendState (mkPeer "a:1" "A" None) []]).
  { repeat constructor. }
  split; [reflexivity | split; [exact Hb |]].
  exact (createClient_once_per_send_until_stop new_network _
           [call_sendState (mkPeer "a:1" "A" None)
              [mkVoteMessage "p" "s" (mkRound 5 0)]] eq_refl Hb).
Defined.

(** Two votes on round (5, 0) from one transport to another. *)
Lemma sent_votes_are_received_witness :
  let v1 := mkVoteMessage "p" "s1" (mkRound 5 0) in
  let v2 := mkVoteMessage "p" "s2" (mkRound 5 0) in
  let to := mkPeer "a:1" "A" None in
  (forall v, deserializeVote (serializeVote v) = Some v)
  /\ sameKeys [v1; v2] = true
  /\ exists request,
       sendState new_network to [v1; v2]
       = [BuildRequest request; CreateClient to; Log lvl_info;
          AsyncSendState to request]
       /\ SendState (subscribe (H:=plain_collaborators) new_network 7%nat)
                    request
          = (OK, [Log lvl_info; OnState (H:=plain_collaborators) 7%nat [v1; v2]]).
Proof.
  cbn zeta.
  assert (Hrt : forall v : VoteMessage,
             deserializeVote (serializeVote v) = Some v) by reflexivity.
  split; [exact Hrt | split; [reflexivity |]].
  exact (sent_votes_are_received new_network
           (subscribe (H:=plain_collaborators) new_network 7%nat)
           (mkPeer "a:1" "A" None) (mkPeer "a:1" "A" None) 7%nat
           [mkVoteMessage "p" "s1" (mkRound 5 0);
            mkVoteMessage "p" "s2" (mkRound 5 0)]
           Hrt eq_refl eq_refl eq_refl eq_refl).
Defined.

End TransportPropertiesEvaluated.

(** *** The address of an insecure client *)

Section ClientAddress.

Lemma append_inj_r (s a b : string) :
  String.append s a = String.append s b -> a = b.
Proof. induction s as [|c s IH]; cbn; [auto | intros [= E]; auto]. Qed.

Lemma to_string_inj (p q : N) : to_string p = to_string q -> p = q.
Proof.
  unfold to_string. intros E.
  apply (f_equal NilEmpty.uint_of_string) in E.
  rewrite !NilEmpty.usu in E. injection E as E.
  apply (f_equal N.of_uint) in E. now rewrite !Unsigned.of_to in E.
Qed.

Lemma client_address_same_ip (ip : string) (p q : N) :
  client_address ip p = client_address ip q -> p = q.
Proof.
  unfold client_address. intros E.
  apply append_inj_r in E. cbn in E. injection E as E.
  now apply to_string_inj.
Qed.

(** [createInsecureClient(ip, port)] is the client for the address
    [ip:port] with the port in decimal, and the address tells the pair:
    two colon-free hosts with their ports give the same address only when
    host and port are the same; for any one host, different ports give
    different addresses. *)
Theorem client_address_injective (ip1 ip2 : string) (p1 p2 : N) :
  no_colon ip1 = true -> no_colon ip2 = true ->
  client_address ip1 p1 = client_address ip2 p2 ->
  (ip1 = ip2 /\ p1 = p2)
  /\ (forall (Params Stub : Type) (mk : string -> Params -> Stub) params,
        createInsecureClient mk ip1 p1 params
        = mk (String.append ip1 (String.append ":" (to_string p1))) params)
  /\ (forall ip q, client_address ip p1 = client_address ip q -> p1 = q).
Proof.
  intros H1 H2 E. split; [| split; [reflexivity |]].
  - assert (Hip : ip1 = ip2).
    { clear -H1 H2 E. revert ip2 H2 E.
      induction ip1 as [|c ip1 IH]; intros [|c' ip2] H2 E.
      - reflexivity.
      - cbn in E. injection E as <- _. cbn in H2. discriminate.
      - cbn in E. injection E as -> _. cbn in H1. discriminate.
      - cbn in E. injection E as -> E.
        cbn in H1, H2. apply andb_true_iff in H1 as [_ H1].
        apply andb_true_iff in H2 as [_ H2].
        f_equal. now apply IH. }
    subst ip2. split; [reflexivity |]. now apply client_address_same_ip in E.
  - intros ip q. apply client_address_same_ip.
Qed.

Lemma client_address_injective_witness :
  no_colon "10.0.0.7" = true /\ no_colon "10.0.0.7" = true
  /\ client_address "10.0.0.7" 10001 = "10.0.0.7:10001"%string
  /\ ("10.0.0.7"%string = "10.0.0.7"%string /\ 10001%N = 10001%N).
Proof.
  split; [reflexivity | split; [reflexivity | split; [reflexivity |]]].
  exact (proj1 (client_address_injective "10.0.0.7" "10.0.0.7" 10001 10001
                  eq_refl eq_refl eq_refl)).
Defined.

End ClientAddress.
